(** * Suffix automaton: online construction and longest common substring

    A shallow embedding of [src/algorithms/string/suffix_automaton.py].

    The Python class keeps a list of [State] objects and an index [last];
    both methods read and write that list in place.  The embedding threads the
    automaton through a small state-and-error monad: a computation takes the
    automaton, and either fails with the exception Python would raise, or
    returns a value together with the automaton it leaves behind. *)

From Stdlib Require Import ZArith Lia.
From stdpp Require Import gmap list strings.

Local Open Scope Z_scope.
Local Open Scope nat_scope.

(** ** Failures *)

(** [IndexError] and [KeyError] are Python's; [OutOfFuel] stands for a
    [while] loop that has not finished within the bound the model gives it. *)
Inductive error : Type :=
  | IndexError
  | KeyError
  | OutOfFuel.

Inductive res (X : Type) : Type :=
  | Ok (x : X)
  | Err (e : error).
Arguments Ok {X} x.
Arguments Err {X} e.

Section Automaton.

(** The alphabet: any hashable, comparable symbol type. *)
Context {A : Type} `{Countable A}.

(** ** Data model *)

(** [class State]: [next] is a dict from symbols to state indices, [link] an
    index or the sentinel [-1], [len] a length. *)
Record State : Type := mkState {
  next : gmap A nat;
  link : Z;
  len : nat
}.

(** [State.__init__] *)
Definition State_init : State :=
  {| next := ∅; link := (-1)%Z; len := 0 |}.

Definition set_next (m : gmap A nat) (s : State) : State :=
  {| next := m; link := link s; len := len s |}.
Definition set_link (k : Z) (s : State) : State :=
  {| next := next s; link := k; len := len s |}.
Definition set_len (n : nat) (s : State) : State :=
  {| next := next s; link := link s; len := n |}.

(** [class SuffixAutomaton]: the fields [states] and [last]. *)
Record SuffixAutomaton : Type := mkSAM {
  states : list State;
  last : nat
}.

(** ** The monad *)

Definition M (X : Type) : Type := SuffixAutomaton → res (X * SuffixAutomaton).

Definition ret {X} (x : X) : M X := λ σ, Ok (x, σ).
Definition raise {X} (e : error) : M X := λ _, Err e.
Definition bind {X Y} (m : M X) (f : X → M Y) : M Y :=
  λ σ, match m σ with
       | Ok (x, σ') => f x σ'
       | Err e => Err e
       end.

Notation "'let*' x ':=' m 'in' f" := (bind m (λ x, f))
  (at level 10, x name, m at level 100, f at level 200,
   format "'[v' 'let*'  x  :=  m  'in'  '/' f ']'").
Notation "'do' m 'then' f" := (bind m (λ _, f))
  (at level 10, m at level 100, f at level 200,
   format "'[v' 'do'  m  'then'  '/' f ']'").

(** [len(self.states)] *)
Definition num_states : M nat := λ σ, Ok (length (states σ), σ).

(** [self.states.append(State())] *)
Definition append_state : M unit :=
  λ σ, Ok (tt, {| states := states σ ++ [State_init]; last := last σ |}).

(** [self.states[i]].  Python would accept a negative [i] and count from the
    end of the list; the model is stricter and fails on every index outside
    [0 .. len(states) - 1], so that a run without failure is also a run in
    which the sentinel [-1] was never used as an index. *)
Definition lookup_state (l : list State) (i : Z) : option State :=
  if decide (0 ≤ i)%Z then l !! Z.to_nat i else None.

Definition get_state (i : Z) : M State :=
  λ σ, match lookup_state (states σ) i with
       | Some s => Ok (s, σ)
       | None => Err IndexError
       end.

(** [self.states[i].field = ...]: the object at index [i] is updated in
    place. *)
Definition modify_state (i : Z) (f : State → State) : M unit :=
  λ σ, match lookup_state (states σ) i with
       | Some s => Ok (tt, {| states := <[Z.to_nat i := f s]> (states σ);
                              last := last σ |})
       | None => Err IndexError
       end.

(** [d[ch]] on a dict *)
Definition dict_get (d : gmap A nat) (ch : A) : M nat :=
  match d !! ch with
  | Some q => ret q
  | None => raise KeyError
  end.

Definition get_last : M nat := λ σ, Ok (last σ, σ).
Definition set_last (v : nat) : M unit :=
  λ σ, Ok (tt, {| states := states σ; last := v |}).

(** ** [extend] *)

(** The first loop of [extend]:
    [while p != -1 and ch not in self.states[p].next]. *)
Fixpoint extend_walk (fuel : nat) (ch : A) (cur : nat) (p : Z) : M Z :=
  match fuel with
  | 0 => raise OutOfFuel
  | S fuel =>
      if decide (p = (-1)%Z) then ret p else
      let* sp := get_state p in
      match next sp !! ch with
      | Some _ => ret p
      | None =>
          do modify_state p (λ s, set_next (<[ch := cur]> (next s)) s) then
          let* sp := get_state p in
          extend_walk fuel ch cur (link sp)
      end
  end.

(** The second loop:
    [while p != -1 and self.states[p].next.get(ch, None) == q]. *)
Fixpoint extend_redirect (fuel : nat) (ch : A) (q clone : nat) (p : Z) : M Z :=
  match fuel with
  | 0 => raise OutOfFuel
  | S fuel =>
      if decide (p = (-1)%Z) then ret p else
      let* sp := get_state p in
      if decide (next sp !! ch = Some q) then
        do modify_state p (λ s, set_next (<[ch := clone]> (next s)) s) then
        let* sp := get_state p in
        extend_redirect fuel ch q clone (link sp)
      else ret p
  end.

Definition extend (ch : A) : M unit :=
  let* cur := num_states in
  do append_state then
  let* lst := get_last in
  let* sl := get_state (Z.of_nat lst) in
  do modify_state (Z.of_nat cur) (set_len (len sl + 1)) then
  let* fuel := num_states in
  let* p := extend_walk fuel ch cur (Z.of_nat lst) in
  do (if decide (p = (-1)%Z) then
     modify_state (Z.of_nat cur) (set_link 0%Z)
   else
     let* sp := get_state p in
     let* q := dict_get (next sp) ch in
     let* sq := get_state (Z.of_nat q) in
     if decide (len sp + 1 = len sq) then
       modify_state (Z.of_nat cur) (set_link (Z.of_nat q))
     else
       let* clone := num_states in
       do append_state then
       let* sq := get_state (Z.of_nat q) in
       do modify_state (Z.of_nat clone) (set_next (next sq)) then
       let* sp := get_state p in
       do modify_state (Z.of_nat clone) (set_len (len sp + 1)) then
       let* sq := get_state (Z.of_nat q) in
       do modify_state (Z.of_nat clone) (set_link (link sq)) then
       let* fuel := num_states in
       do extend_redirect fuel ch q clone p then
       do modify_state (Z.of_nat q) (set_link (Z.of_nat clone)) then
       modify_state (Z.of_nat cur) (set_link (Z.of_nat clone))) then
  set_last cur.

(** [for ch in s: self.extend(ch)] *)
Fixpoint extend_all (s : list A) : M unit :=
  match s with
  | [] => ret tt
  | ch :: s' => do extend ch then extend_all s'
  end.

(** [SuffixAutomaton.__init__]: the automaton before the loop over [s]. *)
Definition empty_automaton : SuffixAutomaton :=
  {| states := [State_init]; last := 0 |}.

Definition SuffixAutomaton_init (s : list A) : res (unit * SuffixAutomaton) :=
  extend_all s empty_automaton.

(** ** [longest_common_substring] *)

(** The inner loop: [while v != -1 and ch not in self.states[v].next]. *)
Fixpoint lcs_walk (fuel : nat) (ch : A) (v : Z) (l : nat) : M (Z * nat) :=
  match fuel with
  | 0 => raise OutOfFuel
  | S fuel =>
      if decide (v = (-1)%Z) then ret (v, l) else
      let* sv := get_state v in
      match next sv !! ch with
      | Some _ => ret (v, l)
      | None =>
          let* sv := get_state v in
          let v' := link sv in
          if decide (v' ≠ (-1)%Z) then
            let* sv' := get_state v' in
            lcs_walk fuel ch v' (len sv')
          else lcs_walk fuel ch v' l
      end
  end.

(** The body of [for ch in t], with the loop variables as arguments. *)
Fixpoint lcs_loop (t : list A) (v : Z) (l best : nat) : M nat :=
  match t with
  | [] => ret best
  | ch :: t' =>
      let* fuel := num_states in
      let* vl := lcs_walk (S fuel) ch v l in
      let v := vl.1 in
      let l := vl.2 in
      if decide (v = (-1)%Z) then lcs_loop t' 0%Z 0 best
      else
        let* sv := get_state v in
        let* v' := dict_get (next sv) ch in
        let l := l + 1 in
        let best := if decide (best < l) then l else best in
        lcs_loop t' (Z.of_nat v') l best
  end.

Definition longest_common_substring (t : list A) : M nat :=
  lcs_loop t 0%Z 0 0.

End Automaton.

Arguments State A {_ _}.
Arguments SuffixAutomaton A {_ _}.
Arguments M A {_ _} X.

Notation "'let*' x ':=' m 'in' f" := (bind m (λ x, f))
  (at level 10, x name, m at level 100, f at level 200,
   format "'[v' 'let*'  x  :=  m  'in'  '/' f ']'").
Notation "'do' m 'then' f" := (bind m (λ _, f))
  (at level 10, m at level 100, f at level 200,
   format "'[v' 'do'  m  'then'  '/' f ']'").

(** * Running the monad *)

Section Monad.
Context {A : Type} `{Countable A}.
Implicit Types (σ : SuffixAutomaton A) (st : list (State A)) (c ch : A).

Lemma bind_ok {X Y} (m : M A X) (f : X → M A Y) σ x σ' :
  m σ = Ok (x, σ') → bind m f σ = f x σ'.
Proof. unfold bind. by intros ->. Qed.

Lemma bind_inv {X Y} (m : M A X) (f : X → M A Y) σ y σ'' :
  bind m f σ = Ok (y, σ'') →
  ∃ x σ', m σ = Ok (x, σ') ∧ f x σ' = Ok (y, σ'').
Proof.
  unfold bind. destruct (m σ) as [[x σ']|e]; [|done]. intros Hf. by exists x, σ'.
Qed.

Lemma lookup_state_nat st v : lookup_state st (Z.of_nat v) = st !! v.
Proof.
  unfold lookup_state. rewrite decide_True by lia. by rewrite Nat2Z.id.
Qed.

Lemma lookup_state_Some st i sv :
  lookup_state st i = Some sv → ∃ v, i = Z.of_nat v ∧ st !! v = Some sv.
Proof.
  unfold lookup_state. case_decide; [|done]. intros Hs.
  exists (Z.to_nat i). split; [lia|done].
Qed.

Lemma lookup_state_neg st : lookup_state st (-1) = None.
Proof. done. Qed.

Lemma get_state_ok σ v sv :
  states σ !! v = Some sv → get_state (Z.of_nat v) σ = Ok (sv, σ).
Proof. intros Hv. unfold get_state. by rewrite lookup_state_nat, Hv. Qed.

Lemma get_state_inv σ i sv σ' :
  get_state i σ = Ok (sv, σ') →
  σ' = σ ∧ ∃ v, i = Z.of_nat v ∧ states σ !! v = Some sv.
Proof.
  unfold get_state. destruct (lookup_state (states σ) i) as [sv'|] eqn:Hl; [|done].
  intros [= -> ->]. split; [done|]. by apply lookup_state_Some.
Qed.

Lemma modify_state_ok σ v sv f :
  states σ !! v = Some sv →
  modify_state (Z.of_nat v) f σ
  = Ok (tt, {| states := <[v := f sv]> (states σ); last := last σ |}).
Proof.
  intros Hv. unfold modify_state. by rewrite lookup_state_nat, Hv, Nat2Z.id.
Qed.

Lemma modify_state_inv σ i f u σ' :
  modify_state i f σ = Ok (u, σ') →
  ∃ v sv, i = Z.of_nat v ∧ states σ !! v = Some sv ∧
          σ' = {| states := <[v := f sv]> (states σ); last := last σ |}.
Proof.
  unfold modify_state.
  destruct (lookup_state (states σ) i) as [sv|] eqn:Hl; [|done].
  intros Heq. apply lookup_state_Some in Hl as (v & -> & Hv).
  rewrite Nat2Z.id in Heq. exists v, sv. by simplify_eq.
Qed.

Lemma dict_get_inv (d : gmap A nat) ch σ q σ' :
  dict_get d ch σ = Ok (q, σ') → σ' = σ ∧ d !! ch = Some q.
Proof.
  unfold dict_get. destruct (d !! ch) as [q'|]; [|done]. by intros [= -> ->].
Qed.

Lemma bind_assoc {X Y W} (m : M A X) (f : X → M A Y) (g : Y → M A W) σ :
  bind (bind m f) g σ = bind m (λ x, bind (f x) g) σ.
Proof. unfold bind. by destruct (m σ) as [[x σ']|e]. Qed.

Lemma bind_num_states {Y} (f : nat → M A Y) σ :
  bind num_states f σ = f (length (states σ)) σ.
Proof. done. Qed.

Lemma bind_append_state {Y} (f : unit → M A Y) σ :
  bind append_state f σ
  = f tt {| states := states σ ++ [State_init]; last := last σ |}.
Proof. done. Qed.

Lemma bind_get_last {Y} (f : nat → M A Y) σ :
  bind get_last f σ = f (last σ) σ.
Proof. done. Qed.

Lemma bind_get_state {Y} (f : State A → M A Y) σ v sv :
  states σ !! v = Some sv → bind (get_state (Z.of_nat v)) f σ = f sv σ.
Proof. intros Hv. apply bind_ok. by apply get_state_ok. Qed.

Lemma bind_modify_state {Y} (f : unit → M A Y) σ v sv g :
  states σ !! v = Some sv →
  bind (modify_state (Z.of_nat v) g) f σ
  = f tt {| states := <[v := g sv]> (states σ); last := last σ |}.
Proof. intros Hv. apply bind_ok. by apply modify_state_ok. Qed.

Lemma bind_dict_get {Y} (f : nat → M A Y) (d : gmap A nat) ch q σ :
  d !! ch = Some q → bind (dict_get d ch) f σ = f q σ.
Proof. intros Hq. apply bind_ok. unfold dict_get. by rewrite Hq. Qed.

(** ** Computations that only read *)

Definition readonly {X} (m : M A X) : Prop :=
  ∀ σ x σ', m σ = Ok (x, σ') → σ' = σ.

Lemma readonly_ret {X} (x : X) : readonly (ret x).
Proof. by intros σ y σ' [= _ ->]. Qed.

Lemma readonly_raise {X} e : readonly (raise (X:=X) e).
Proof. by intros σ y σ'. Qed.

Lemma readonly_bind {X Y} (m : M A X) (f : X → M A Y) :
  readonly m → (∀ x, readonly (f x)) → readonly (bind m f).
Proof.
  intros Hm Hf σ y σ'' (x & σ' & H1 & H2)%bind_inv.
  apply Hm in H1 as ->. by apply Hf in H2.
Qed.

Lemma readonly_get_state i : readonly (get_state i).
Proof. by intros σ sv σ' [-> _]%get_state_inv. Qed.

Lemma readonly_num_states : readonly num_states.
Proof. by intros σ n σ' [= _ ->]. Qed.

Lemma readonly_dict_get d ch : readonly (dict_get d ch).
Proof. by intros σ q σ' [-> _]%dict_get_inv. Qed.

Lemma readonly_lcs_walk fuel ch v l : readonly (lcs_walk fuel ch v l).
Proof.
  revert v l. induction fuel as [|fuel IH]; intros v l; simpl.
  { apply readonly_raise. }
  case_decide; [apply readonly_ret|].
  apply readonly_bind; [apply readonly_get_state|]. intros sv.
  destruct (next sv !! ch); [apply readonly_ret|].
  apply readonly_bind; [apply readonly_get_state|]. intros sv'.
  case_decide; [|apply IH].
  apply readonly_bind; [apply readonly_get_state|]. intros sv''. apply IH.
Qed.

Lemma readonly_lcs_loop t v l best : readonly (lcs_loop t v l best).
Proof.
  revert v l best. induction t as [|ch t IH]; intros v l best; cbn [lcs_loop].
  { apply readonly_ret. }
  apply readonly_bind; [apply readonly_num_states|]. intros fuel.
  apply readonly_bind; [apply readonly_lcs_walk|]. intros [v' l']. cbn [fst snd].
  case_decide; [apply IH|].
  apply readonly_bind; [apply readonly_get_state|]. intros sv.
  apply readonly_bind; [apply readonly_dict_get|]. intros q. apply IH.
Qed.

(** ** What [extend] leaves alone *)

(** [keeps n lo hi m]: run on an automaton with at least [n] states, [m]
    appends between [lo] and [hi] states and leaves the [len] field of the
    first [n] states as it was. *)
Definition keeps (n lo hi : nat) {X} (m : M A X) : Prop :=
  ∀ σ x σ', n ≤ length (states σ) → m σ = Ok (x, σ') →
    (length (states σ) + lo ≤ length (states σ') ≤ length (states σ) + hi) ∧
    ∀ v, v < n → len <$> states σ' !! v = len <$> states σ !! v.

Lemma keeps_ret n {X} (x : X) : keeps n 0 0 (ret x).
Proof. intros σ y σ' _ [= _ ->]. split; [lia|done]. Qed.

Lemma keeps_bind n lo1 hi1 lo2 hi2 {X Y} (m : M A X) (f : X → M A Y) :
  keeps n lo1 hi1 m → (∀ x, keeps n lo2 hi2 (f x)) →
  keeps n (lo1 + lo2) (hi1 + hi2) (bind m f).
Proof.
  intros Hm Hf σ y σ'' Hn (x & σ' & H1 & H2)%bind_inv.
  destruct (Hm _ _ _ Hn H1) as [Hl1 Hk1].
  assert (n ≤ length (states σ')) as Hn' by lia.
  destruct (Hf x _ _ _ Hn' H2) as [Hl2 Hk2].
  split; [lia|]. intros v Hv. by rewrite Hk2, Hk1.
Qed.

Lemma keeps_get_state n i : keeps n 0 0 (get_state i).
Proof. intros σ sv σ' _ [-> _]%get_state_inv. split; [lia|done]. Qed.

Lemma keeps_num_states n : keeps n 0 0 num_states.
Proof. intros σ k σ' _ [= _ ->]. split; [lia|done]. Qed.

Lemma keeps_dict_get n d ch : keeps n 0 0 (dict_get d ch).
Proof. intros σ q σ' _ [-> _]%dict_get_inv. split; [lia|done]. Qed.

Lemma keeps_get_last n : keeps n 0 0 get_last.
Proof. intros σ k σ' _ [= _ ->]. split; [lia|done]. Qed.

Lemma keeps_set_last n v : keeps n 0 0 (set_last v).
Proof.
  intros σ k σ' _ Heq. unfold set_last in Heq. simplify_eq.
  split; [simpl; lia|done].
Qed.

Lemma keeps_append_state n : keeps n 1 1 append_state.
Proof.
  intros σ k σ' Hn Heq. unfold append_state in Heq. simplify_eq. simpl.
  split; [rewrite length_app; simpl; lia|].
  intros v Hv. by rewrite lookup_app_l by lia.
Qed.

(** An update that does not touch [len]. *)
Lemma keeps_modify_state n i f :
  (∀ sv, len (f sv) = len sv) → keeps n 0 0 (modify_state i f).
Proof.
  intros Hf σ k σ' _ (v & sv & -> & Hsv & ->)%modify_state_inv. simpl.
  rewrite length_insert. split; [lia|]. intros u _.
  destruct (decide (u = v)) as [->|].
  - rewrite list_lookup_insert_eq by by eapply lookup_lt_Some.
    rewrite Hsv. simpl. by rewrite Hf.
  - by rewrite list_lookup_insert_ne.
Qed.

(** An update of a state that is past the first [n]. *)
Lemma keeps_modify_state_new n v f :
  n ≤ v → keeps n 0 0 (modify_state (Z.of_nat v) f).
Proof.
  intros Hnv σ k σ' _ (v' & sv & ->%(inj Z.of_nat) & Hsv & ->)%modify_state_inv.
  simpl. rewrite length_insert. split; [lia|]. intros u Hu.
  rewrite list_lookup_insert_ne by lia. done.
Qed.

Lemma keeps_weaken n lo hi lo' hi' {X} (m : M A X) :
  lo' ≤ lo → hi ≤ hi' → keeps n lo hi m → keeps n lo' hi' m.
Proof.
  intros Hlo Hhi Hm σ x σ' Hn Hσ. destruct (Hm _ _ _ Hn Hσ) as [Hl Hk].
  split; [lia|done].
Qed.

Lemma keeps_extend_walk n fuel ch cur p : keeps n 0 0 (extend_walk fuel ch cur p).
Proof.
  revert p. induction fuel as [|fuel IH]; intros p; simpl; [by intros σ x σ' _|].
  case_decide; [apply keeps_ret|].
  apply (keeps_bind n 0 0 0 0); [apply keeps_get_state|]. intros sp.
  destruct (next sp !! ch); [apply keeps_ret|].
  apply (keeps_bind n 0 0 0 0); [by apply keeps_modify_state|]. intros _.
  apply (keeps_bind n 0 0 0 0); [apply keeps_get_state|]. intros sp'. apply IH.
Qed.

Lemma keeps_extend_redirect n fuel ch q clone p :
  keeps n 0 0 (extend_redirect fuel ch q clone p).
Proof.
  revert p. induction fuel as [|fuel IH]; intros p; simpl; [by intros σ x σ' _|].
  case_decide; [apply keeps_ret|].
  apply (keeps_bind n 0 0 0 0); [apply keeps_get_state|]. intros sp.
  case_decide; [|apply keeps_ret].
  apply (keeps_bind n 0 0 0 0); [by apply keeps_modify_state|]. intros _.
  apply (keeps_bind n 0 0 0 0); [apply keeps_get_state|]. intros sp'. apply IH.
Qed.

End Monad.

(** * Frame properties *)

Section Frame.
Context {A : Type} `{Countable A}.
Implicit Types (σ : SuffixAutomaton A) (ch : A).

Lemma keeps_bind_num_states n lo hi {Y} (f : nat → M A Y) :
  (∀ k, n ≤ k → keeps n lo hi (f k)) → keeps n lo hi (bind num_states f).
Proof.
  intros Hf σ y σ'' Hn (k & σ' & H1 & H2)%bind_inv.
  unfold num_states in H1. simplify_eq. by eapply Hf.
Qed.

Lemma keeps_extend n ch : keeps n 1 2 (extend ch).
Proof.
  unfold extend. apply keeps_bind_num_states. intros cur Hcur.
  apply (keeps_bind n 1 1 0 1); [apply keeps_append_state|]. intros _.
  apply (keeps_bind n 0 0 0 1); [apply keeps_get_last|]. intros lst.
  apply (keeps_bind n 0 0 0 1); [apply keeps_get_state|]. intros sl.
  apply (keeps_bind n 0 0 0 1); [by apply keeps_modify_state_new|]. intros _.
  apply (keeps_bind n 0 0 0 1); [apply keeps_num_states|]. intros fuel.
  apply (keeps_bind n 0 0 0 1); [apply keeps_extend_walk|]. intros p.
  apply (keeps_bind n 0 1 0 0); [|intros _; apply keeps_set_last].
  case_decide.
  { apply (keeps_weaken n 0 0); [lia..|]. by apply keeps_modify_state. }
  apply (keeps_bind n 0 0 0 1); [apply keeps_get_state|]. intros sp.
  apply (keeps_bind n 0 0 0 1); [apply keeps_dict_get|]. intros q.
  apply (keeps_bind n 0 0 0 1); [apply keeps_get_state|]. intros sq.
  case_decide.
  { apply (keeps_weaken n 0 0); [lia..|]. by apply keeps_modify_state. }
  apply keeps_bind_num_states. intros clone Hclone.
  apply (keeps_weaken n 1 1); [lia..|].
  apply (keeps_bind n 1 1 0 0); [apply keeps_append_state|]. intros _.
  apply (keeps_bind n 0 0 0 0); [apply keeps_get_state|]. intros sq'.
  apply (keeps_bind n 0 0 0 0); [by apply keeps_modify_state_new|]. intros _.
  apply (keeps_bind n 0 0 0 0); [apply keeps_get_state|]. intros sp'.
  apply (keeps_bind n 0 0 0 0); [by apply keeps_modify_state_new|]. intros _.
  apply (keeps_bind n 0 0 0 0); [apply keeps_get_state|]. intros sq''.
  apply (keeps_bind n 0 0 0 0); [by apply keeps_modify_state_new|]. intros _.
  apply (keeps_bind n 0 0 0 0); [apply keeps_num_states|]. intros fuel'.
  apply (keeps_bind n 0 0 0 0); [apply keeps_extend_redirect|]. intros _.
  apply (keeps_bind n 0 0 0 0); [by apply keeps_modify_state|]. intros _.
  by apply keeps_modify_state.
Qed.

(** A call of [extend] that returns has appended one or two states, has
    kept every state that was there, and has left the [len] field of each of
    them as it was. *)
Lemma extend_keeps_len ch σ σ' :
  extend ch σ = Ok (tt, σ') →
  (length (states σ') = length (states σ) + 1 ∨
   length (states σ') = length (states σ) + 2) ∧
  ∀ v sv, states σ !! v = Some sv →
    ∃ sv', states σ' !! v = Some sv' ∧ len sv' = len sv.
Proof.
  intros Hext.
  destruct (keeps_extend (length (states σ)) ch σ tt σ') as [Hlen Hkeep];
    [done..|].
  split; [lia|]. intros v sv Hv.
  specialize (Hkeep v (lookup_lt_Some _ _ _ Hv)). rewrite Hv in Hkeep.
  destruct (states σ' !! v) as [sv'|]; [|done].
  exists sv'. split; [done|]. by injection Hkeep.
Qed.

(** ** The states [extend] appends *)

Lemma modify_state_length σ i f u σ' :
  modify_state i f σ = Ok (u, σ') → length (states σ') = length (states σ).
Proof.
  intros (v & sv & -> & Hsv & ->)%modify_state_inv. simpl.
  by rewrite length_insert.
Qed.

Lemma extend_walk_length fuel ch cur p σ pf σ' :
  extend_walk fuel ch cur p σ = Ok (pf, σ') →
  length (states σ') = length (states σ).
Proof.
  intros Hrun.
  destruct (keeps_extend_walk 0 fuel ch cur p σ pf σ') as [Hlen _]; [lia|done|].
  lia.
Qed.

Lemma extend_redirect_length fuel ch q clone p σ pf σ' :
  extend_redirect fuel ch q clone p σ = Ok (pf, σ') →
  length (states σ') = length (states σ).
Proof.
  intros Hrun.
  destruct (keeps_extend_redirect 0 fuel ch q clone p σ pf σ') as [Hlen _];
    [lia|done|].
  lia.
Qed.

(** [self.states[v].link = k] leaves a state with that link at [v]. *)
Lemma modify_state_set_link σ v k u σ' :
  modify_state (Z.of_nat v) (set_link k) σ = Ok (u, σ') →
  length (states σ') = length (states σ) ∧
  ∃ sv, states σ' !! v = Some sv ∧ link sv = k.
Proof.
  intros (v' & sv & ->%(inj Z.of_nat) & Hsv & ->)%modify_state_inv. simpl.
  rewrite length_insert. split; [done|]. exists (set_link k sv).
  by rewrite list_lookup_insert_eq by by eapply lookup_lt_Some.
Qed.

(** The first state a call appends is [cur], at the old number of states.
    The call appends nothing else when it links [cur] to an index up to
    [cur] (the initial state, or the target [q] of the transition found), and
    it appends one more state, the clone, when it links [cur] to it. *)
Lemma extend_new_states ch σ σ' :
  extend ch σ = Ok (tt, σ') →
  ∃ scur, states σ' !! length (states σ) = Some scur ∧
    ((length (states σ') = length (states σ) + 1 ∧
      (link scur < Z.of_nat (length (states σ) + 1))%Z) ∨
     (length (states σ') = length (states σ) + 2 ∧
      link scur = Z.of_nat (length (states σ) + 1))).
Proof.
  unfold extend. rewrite bind_num_states, bind_append_state, bind_get_last.
  cbn [states last]. intros Hext.
  apply bind_inv in Hext as (sl & σ1 & [-> _]%get_state_inv & Hext).
  apply bind_inv in Hext as ([] & σ2 & Hlen2%modify_state_length & Hext).
  cbn [states] in Hlen2. rewrite length_app in Hlen2. simpl in Hlen2.
  rewrite bind_num_states in Hext.
  apply bind_inv in Hext as (p & σ3 & Hlen3%extend_walk_length & Hext).
  apply bind_inv in Hext as ([] & σ4 & Hbr & Hlast).
  unfold set_last in Hlast. simplify_eq. cbn [states].
  case_decide.
  { apply modify_state_set_link in Hbr as (Hlen4 & scur & Hcur & Hlink).
    exists scur. split; [done|]. left. lia. }
  apply bind_inv in Hbr as (sp & ? & [-> _]%get_state_inv & Hbr).
  apply bind_inv in Hbr as (q & ? & [-> _]%dict_get_inv & Hbr).
  apply bind_inv in Hbr
    as (sq & ? & (-> & q' & ->%(inj Z.of_nat) & Hq%lookup_lt_Some)%get_state_inv
        & Hbr).
  case_decide.
  { apply modify_state_set_link in Hbr as (Hlen4 & scur & Hcur & Hlink).
    exists scur. split; [done|]. left. lia. }
  rewrite bind_num_states, bind_append_state in Hbr.
  apply bind_inv in Hbr as (? & σ5 & [-> _]%get_state_inv & Hbr).
  apply bind_inv in Hbr as ([] & σ6 & Hlen6%modify_state_length & Hbr).
  cbn [states] in Hlen6. rewrite length_app in Hlen6. simpl in Hlen6.
  apply bind_inv in Hbr as (? & ? & [-> _]%get_state_inv & Hbr).
  apply bind_inv in Hbr as ([] & σ7 & Hlen7%modify_state_length & Hbr).
  apply bind_inv in Hbr as (? & ? & [-> _]%get_state_inv & Hbr).
  apply bind_inv in Hbr as ([] & σ8 & Hlen8%modify_state_length & Hbr).
  rewrite bind_num_states in Hbr.
  apply bind_inv in Hbr as (? & σ9 & Hlen9%extend_redirect_length & Hbr).
  apply bind_inv in Hbr as ([] & σ10 & Hlen10%modify_state_length & Hbr).
  apply modify_state_set_link in Hbr as (Hlen4 & scur & Hcur & Hlink).
  exists scur. split; [done|]. right. split; [lia|].
  rewrite Hlink. f_equal. lia.
Qed.

(** C10: [longest_common_substring] only reads: when it returns, the
    automaton (the list of states with all their fields, and [last]) is the
    one it was called on. *)
Theorem longest_common_substring_pure t σ n σ' :
  longest_common_substring t σ = Ok (n, σ') → σ' = σ.
Proof. apply readonly_lcs_loop. Qed.

(** The query on the automaton of the empty string. *)
Lemma lcs_loop_empty t :
  lcs_loop t 0%Z 0 0 (empty_automaton (A:=A)) = Ok (0, empty_automaton).
Proof.
  induction t as [|ch t IH]; [done|].
  assert (lcs_walk 2 ch 0%Z 0 (empty_automaton (A:=A))
          = Ok (((-1)%Z, 0), empty_automaton)) as Hwalk.
  { unfold lcs_walk, bind, get_state, ret, lookup_state. simpl.
    by rewrite lookup_empty. }
  cbn [lcs_loop]. unfold bind at 1. cbn [num_states empty_automaton states length].
  fold (empty_automaton (A:=A)). rewrite (bind_ok _ _ _ _ _ Hwalk). exact IH.
Qed.

(** C8: building from the empty string gives the automaton with the initial
    state alone ([len = 0], [link = -1], no transition) and [last = 0], and
    every query on it returns 0. *)
Theorem empty_string_automaton :
  SuffixAutomaton_init (A:=A) [] =
    Ok (tt, {| states := [{| next := ∅; link := (-1)%Z; len := 0 |}];
               last := 0 |}) ∧
  ∀ t σ, SuffixAutomaton_init (A:=A) [] = Ok (tt, σ) →
    longest_common_substring t σ = Ok (0, σ).
Proof.
  split; [done|]. intros t σ [= <-]. apply lcs_loop_empty.
Qed.

End Frame.

(** * What [extend] does to the transitions and links of old states *)

Section FrameNext.
Context {A : Type} `{Countable A}.
Implicit Types (σ : SuffixAutomaton A) (ch : A).

(** [sv'] is [sv] after writes that only put indices from [n] up to, and
    not including, [m] into the entry [ch] of [next] and into [link]; [len]
    is not looked at here. *)
Definition only_new (ch : A) (n m : nat) (sv sv' : State A) : Prop :=
  (∀ c, next sv' !! c = next sv !! c ∨
        (c = ch ∧ ∃ q, next sv' !! c = Some q ∧ n ≤ q < m)) ∧
  (link sv' = link sv ∨ ∃ k, link sv' = Z.of_nat k ∧ n ≤ k < m).

Lemma only_new_refl ch n m sv : only_new ch n m sv sv.
Proof. split; [intros c|]; by left. Qed.

Lemma only_new_mono ch n m m' sv sv' :
  m ≤ m' → only_new ch n m sv sv' → only_new ch n m' sv sv'.
Proof.
  intros Hm [Hn Hl]. split.
  - intros c. destruct (Hn c) as [? | (-> & q & ? & ?)]; [by left|right].
    split; [done|]. exists q. split; [done|lia].
  - destruct Hl as [? | (k & ? & ?)]; [by left|right]. exists k. split; [done|lia].
Qed.

Lemma only_new_trans ch n m sv1 sv2 sv3 :
  only_new ch n m sv1 sv2 → only_new ch n m sv2 sv3 → only_new ch n m sv1 sv3.
Proof.
  intros [Hn1 Hl1] [Hn2 Hl2]. split.
  - intros c. destruct (Hn2 c) as [-> | Hnew]; [apply Hn1|by right].
  - destruct Hl2 as [-> | Hnew]; [apply Hl1|by right].
Qed.

(** [keeps_old ch n k k' m]: run on an automaton with at least [k] states,
    [m] leaves at least [k'] states, removes none, keeps the first [n] states
    in place and changes them by [only_new], the indices it writes being
    indices of the automaton it leaves. *)
Definition keeps_old (ch : A) (n k k' : nat) {X} (m : M A X) : Prop :=
  ∀ σ x σ', k ≤ length (states σ) → m σ = Ok (x, σ') →
    k' ≤ length (states σ') ∧ length (states σ) ≤ length (states σ') ∧
    ∀ v sv, v < n → states σ !! v = Some sv →
      ∃ sv', states σ' !! v = Some sv' ∧
             only_new ch n (length (states σ')) sv sv'.

Lemma keeps_old_pure ch n k {X} (m : M A X) :
  readonly m → keeps_old ch n k k m.
Proof.
  intros Hm σ x σ' Hn Hrun. rewrite (Hm _ _ _ Hrun). split_and!; [done..|].
  intros v sv _ Hsv. exists sv. split; [done|apply only_new_refl].
Qed.

Lemma keeps_old_weaken ch n k k1 k2 {X} (m : M A X) :
  k2 ≤ k1 → keeps_old ch n k k1 m → keeps_old ch n k k2 m.
Proof.
  intros Hk Hm σ x σ' Hn Hrun. destruct (Hm _ _ _ Hn Hrun) as (? & ? & ?).
  split_and!; [lia|done..].
Qed.

Lemma keeps_old_bind ch n k1 k2 k3 {X Y} (m : M A X) (f : X → M A Y) :
  keeps_old ch n k1 k2 m → (∀ x, keeps_old ch n k2 k3 (f x)) →
  keeps_old ch n k1 k3 (bind m f).
Proof.
  intros Hm Hf σ y σ'' Hn (x & σ' & H1 & H2)%bind_inv.
  destruct (Hm _ _ _ Hn H1) as (Hn' & Hle1 & Hk1).
  destruct (Hf x _ _ _ Hn' H2) as (Hn'' & Hle2 & Hk2).
  split_and!; [done|lia|]. intros v sv Hv Hsv.
  destruct (Hk1 v sv Hv Hsv) as (sv' & Hsv' & Hnew1).
  destruct (Hk2 v sv' Hv Hsv') as (sv'' & Hsv'' & Hnew2).
  exists sv''. split; [done|].
  eapply only_new_trans; [|done]. by eapply only_new_mono.
Qed.

(** After [len(self.states)] the number read is a lower bound of the number
    of states. *)
Lemma keeps_old_bind_num_states ch n k k' {Y} (f : nat → M A Y) :
  (∀ j, k ≤ j → keeps_old ch n j k' (f j)) →
  keeps_old ch n k k' (bind num_states f).
Proof.
  intros Hf σ y σ'' Hn (j & σ' & H1 & H2)%bind_inv.
  unfold num_states in H1. simplify_eq. by eapply Hf.
Qed.

Lemma keeps_old_set_last ch n k v : keeps_old ch n k k (set_last v).
Proof.
  intros σ j σ' Hn Heq. unfold set_last in Heq. simplify_eq. simpl.
  split_and!; [done..|].
  intros u su _ Hsu. exists su. split; [done|apply only_new_refl].
Qed.

Lemma keeps_old_append_state ch n k : keeps_old ch n k (S k) append_state.
Proof.
  intros σ j σ' Hn Heq. unfold append_state in Heq. simplify_eq. simpl.
  rewrite length_app. simpl. split_and!; [lia..|].
  intros v sv Hv Hsv. exists sv. split; [|apply only_new_refl].
  rewrite lookup_app_l; [done|by eapply lookup_lt_Some].
Qed.

(** A write to a state: allowed when the state is past the first [n], or
    when the new value differs from the old one by [only_new]. *)
Lemma keeps_old_modify_state ch n k i f :
  (∀ m sv, k ≤ m → only_new ch n m sv (f sv)) →
  keeps_old ch n k k (modify_state i f).
Proof.
  intros Hf σ j σ' Hn (v & sv & -> & Hsv & ->)%modify_state_inv. simpl.
  rewrite length_insert. split_and!; [done..|]. intros u su Hu Hsu.
  destruct (decide (u = v)) as [->|Hne].
  - exists (f sv). rewrite list_lookup_insert_eq by by eapply lookup_lt_Some.
    split; [done|]. simplify_eq. by apply Hf.
  - exists su. rewrite list_lookup_insert_ne by done.
    split; [done|apply only_new_refl].
Qed.

Lemma keeps_old_modify_state_new ch n k v f :
  n ≤ v → keeps_old ch n k k (modify_state (Z.of_nat v) f).
Proof.
  intros Hnv σ j σ' Hn (v' & sv & ->%(inj Z.of_nat) & Hsv & ->)%modify_state_inv.
  simpl. rewrite length_insert. split_and!; [done..|]. intros u su Hu Hsu.
  exists su. rewrite list_lookup_insert_ne by lia.
  split; [done|apply only_new_refl].
Qed.

Lemma only_new_set_link ch n m k sv :
  n ≤ k < m → only_new ch n m sv (set_link (Z.of_nat k) sv).
Proof. intros Hk. split; [intros c; by left|]. right. by exists k. Qed.

Lemma only_new_set_next ch n m k sv :
  n ≤ k < m → only_new ch n m sv (set_next (<[ch := k]> (next sv)) sv).
Proof.
  intros Hk. split; [|by left]. intros c. simpl.
  destruct (decide (c = ch)) as [->|Hne].
  - right. split; [done|]. exists k. by rewrite lookup_insert_eq.
  - left. by rewrite lookup_insert_ne.
Qed.

(** The first loop writes [cur], which is a state by the time it runs. *)
Lemma keeps_old_extend_walk ch n k fuel cur p :
  n ≤ cur < k → keeps_old ch n k k (extend_walk fuel ch cur p).
Proof.
  intros Hcur. revert p. induction fuel as [|fuel IH]; intros p; simpl.
  { by intros σ x σ' _. }
  case_decide; [apply keeps_old_pure, readonly_ret|].
  eapply keeps_old_bind; [apply keeps_old_pure, readonly_get_state|]. intros sp.
  destruct (next sp !! ch); [apply keeps_old_pure, readonly_ret|].
  eapply keeps_old_bind.
  { apply keeps_old_modify_state. intros m sv Hm. apply only_new_set_next. lia. }
  intros _.
  eapply keeps_old_bind; [apply keeps_old_pure, readonly_get_state|]. intros sp'.
  apply IH.
Qed.

(** The second loop writes [clone], which is a state by the time it runs. *)
Lemma keeps_old_extend_redirect ch n k fuel q clone p :
  n ≤ clone < k → keeps_old ch n k k (extend_redirect fuel ch q clone p).
Proof.
  intros Hclone. revert p. induction fuel as [|fuel IH]; intros p; simpl.
  { by intros σ x σ' _. }
  case_decide; [apply keeps_old_pure, readonly_ret|].
  eapply keeps_old_bind; [apply keeps_old_pure, readonly_get_state|]. intros sp.
  case_decide; [|apply keeps_old_pure, readonly_ret].
  eapply keeps_old_bind.
  { apply keeps_old_modify_state. intros m sv Hm. apply only_new_set_next. lia. }
  intros _.
  eapply keeps_old_bind; [apply keeps_old_pure, readonly_get_state|]. intros sp'.
  apply IH.
Qed.

Lemma keeps_old_extend n ch : keeps_old ch n n (S n) (extend ch).
Proof.
  unfold extend. apply keeps_old_bind_num_states. intros cur Hcur.
  apply (keeps_old_weaken ch n cur (S cur)); [lia|].
  eapply keeps_old_bind; [apply keeps_old_append_state|]. intros _.
  eapply keeps_old_bind; [apply keeps_old_pure; by intros σ x σ' [= _ ->]|].
  intros lst.
  eapply keeps_old_bind; [apply keeps_old_pure, readonly_get_state|]. intros sl.
  eapply keeps_old_bind; [by apply keeps_old_modify_state_new|]. intros _.
  eapply keeps_old_bind; [apply keeps_old_pure, readonly_num_states|]. intros fuel.
  eapply keeps_old_bind; [apply keeps_old_extend_walk; lia|]. intros p.
  eapply keeps_old_bind; [|intros _; apply keeps_old_set_last].
  case_decide; [by apply keeps_old_modify_state_new|].
  eapply keeps_old_bind; [apply keeps_old_pure, readonly_get_state|]. intros sp.
  eapply keeps_old_bind; [apply keeps_old_pure, readonly_dict_get|]. intros q.
  eapply keeps_old_bind; [apply keeps_old_pure, readonly_get_state|]. intros sq.
  case_decide; [by apply keeps_old_modify_state_new|].
  apply keeps_old_bind_num_states. intros clone Hclone.
  apply (keeps_old_weaken ch n clone (S clone)); [lia|].
  eapply keeps_old_bind; [apply keeps_old_append_state|]. intros _.
  eapply keeps_old_bind; [apply keeps_old_pure, readonly_get_state|]. intros sq'.
  eapply keeps_old_bind; [apply keeps_old_modify_state_new; lia|]. intros _.
  eapply keeps_old_bind; [apply keeps_old_pure, readonly_get_state|]. intros sp'.
  eapply keeps_old_bind; [apply keeps_old_modify_state_new; lia|]. intros _.
  eapply keeps_old_bind; [apply keeps_old_pure, readonly_get_state|]. intros sq''.
  eapply keeps_old_bind; [apply keeps_old_modify_state_new; lia|]. intros _.
  eapply keeps_old_bind; [apply keeps_old_pure, readonly_num_states|]. intros fuel'.
  eapply keeps_old_bind; [apply keeps_old_extend_redirect; lia|]. intros _.
  eapply keeps_old_bind.
  { apply keeps_old_modify_state. intros m sv Hm. apply only_new_set_link. lia. }
  intros _. by apply keeps_old_modify_state_new.
Qed.

(** X1: a call of [extend ch] that returns leaves every transition of every
    old state as it was, except that the entry for [ch] may have been set or
    reset to a state the call created (an index from the old number of states
    on and below the new number); no entry is removed, and the suffix link of
    an old state is as it was or is a state the call created. *)
Theorem extend_old_states ch σ σ' :
  extend ch σ = Ok (tt, σ') →
  ∀ v sv, states σ !! v = Some sv →
    ∃ sv', states σ' !! v = Some sv' ∧
      (∀ c, next sv' !! c = next sv !! c ∨
            (c = ch ∧ ∃ q, next sv' !! c = Some q ∧
                           length (states σ) ≤ q < length (states σ'))) ∧
      (link sv' = link sv ∨
       ∃ k, link sv' = Z.of_nat k ∧
            length (states σ) ≤ k < length (states σ')).
Proof.
  intros Hext v sv Hsv.
  destruct (keeps_old_extend (length (states σ)) ch σ tt σ') as (_ & _ & Hkeep);
    [done..|].
  destruct (Hkeep v sv (lookup_lt_Some _ _ _ Hsv) Hsv) as (sv' & Hsv' & Hnew).
  by exists sv'.
Qed.

(** X2: a call of [extend] that returns has set [last] to the index of the
    state it appended first, which is the number of states before the call. *)
Theorem extend_sets_last ch σ σ' :
  extend ch σ = Ok (tt, σ') → last σ' = length (states σ).
Proof.
  unfold extend. rewrite bind_num_states. intros Hext.
  do 6 apply bind_inv in Hext as (? & ? & _ & Hext).
  apply bind_inv in Hext as (? & σ1 & _ & Hext).
  unfold set_last in Hext. by simplify_eq.
Qed.

End FrameNext.
(** * Strings: substrings and end positions *)

Section Strings.
Context {A : Type}.
Implicit Types s w x y z : list A.

(** [w] is a contiguous run of symbols of [s]. *)
Definition substring (w s : list A) : Prop := ∃ a b, s = a ++ w ++ b.

(** Two strings are end-equivalent in [s] when they end at the same places of
    [s]; a place is given by the prefix of [s] that stops there. *)
Definition endpos_eq (s w w' : list A) : Prop :=
  ∀ x, x `prefix_of` s → (w `suffix_of` x ↔ w' `suffix_of` x).

Lemma substring_occ w s :
  substring w s ↔ ∃ x, x `prefix_of` s ∧ w `suffix_of` x.
Proof.
  split.
  - intros (a & b & ->). exists (a ++ w). split.
    + exists b. by rewrite <-(assoc_L (++)).
    + by exists a.
  - intros (x & [b ->] & [a ->]). exists a, b. by rewrite <-(assoc_L (++)).
Qed.

Lemma substring_refl s : substring s s.
Proof. exists [], []. by rewrite app_nil_r. Qed.

Lemma substring_nil s : substring [] s.
Proof. by exists [], s. Qed.

Lemma substring_length w s : substring w s → length w ≤ length s.
Proof. intros (a & b & ->). rewrite !length_app. lia. Qed.

Lemma substring_too_long w s : length s < length w → ¬ substring w s.
Proof. intros Hlt Hsub%substring_length. lia. Qed.

Lemma substring_suffix w' w s : w' `suffix_of` w → substring w s → substring w' s.
Proof.
  intros [k ->] (a & b & ->). exists (a ++ k), b.
  by rewrite <-!(assoc_L (++)).
Qed.

Lemma substring_prefix w' w s : w' `prefix_of` w → substring w s → substring w' s.
Proof.
  intros [k ->] (a & b & ->). exists a, (k ++ b).
  by rewrite <-!(assoc_L (++)).
Qed.

Lemma substring_snoc_l w c s : substring (w ++ [c]) s → substring w s.
Proof. apply substring_prefix. by exists [c]. Qed.

Lemma suffix_substring w s : w `suffix_of` s → substring w s.
Proof. intros [k ->]. exists k, []. by rewrite app_nil_r. Qed.

Lemma substring_trans w x s : substring w x → substring x s → substring w s.
Proof.
  intros (a & b & ->) (a' & b' & ->). exists (a' ++ a), (b ++ b').
  by rewrite <-!(assoc_L (++)).
Qed.

Lemma endpos_eq_refl s w : endpos_eq s w w.
Proof. by intros x _. Qed.

Lemma endpos_eq_sym s w w' : endpos_eq s w w' → endpos_eq s w' w.
Proof. intros Hw x Hx. by rewrite (Hw x Hx). Qed.

Lemma endpos_eq_trans s w1 w2 w3 :
  endpos_eq s w1 w2 → endpos_eq s w2 w3 → endpos_eq s w1 w3.
Proof. intros H1 H2 x Hx. by rewrite (H1 x Hx), (H2 x Hx). Qed.

Lemma endpos_eq_substring s w w' :
  endpos_eq s w w' → substring w s → substring w' s.
Proof.
  rewrite !substring_occ. intros Hw (x & Hx & Hs).
  exists x. split; [done|]. by apply Hw.
Qed.

(** Equivalent strings that occur at all are suffixes of one another. *)
Lemma endpos_eq_comparable s w w' :
  endpos_eq s w w' → substring w s → w `suffix_of` w' ∨ w' `suffix_of` w.
Proof.
  rewrite substring_occ. intros Hw (x & Hx & Hs).
  apply (suffix_weak_total _ _ x); [done|]. by apply Hw.
Qed.

(** A class is an interval of suffixes. *)
Lemma endpos_eq_between s u x w :
  u `suffix_of` x → x `suffix_of` w → endpos_eq s u w → endpos_eq s x w.
Proof.
  intros Hux Hxw Huw y Hy. split.
  - intros Hxy. apply Huw; [done|]. by etrans.
  - intros Hwy. by etrans.
Qed.

Lemma suffix_snoc_iff w a s c :
  w ++ [a] `suffix_of` s ++ [c] ↔ a = c ∧ w `suffix_of` s.
Proof.
  split.
  - intros Hs. split; [by eapply suffix_snoc_inv_1|by eapply suffix_snoc_inv_2].
  - intros [-> Hs]. by apply suffix_snoc_alt.
Qed.

Lemma suffix_snoc_cases y s c :
  y `suffix_of` s ++ [c] → y = [] ∨ ∃ y', y = y' ++ [c] ∧ y' `suffix_of` s.
Proof.
  destruct y as [|a y _] using rev_ind; [by left|].
  rewrite suffix_snoc_iff. intros [-> Hs]. right. by exists y.
Qed.

Lemma suffix_snoc_r_inv w a x : w ++ [a] `suffix_of` x → ∃ y, x = y ++ [a] ∧ w `suffix_of` y.
Proof.
  intros [k ->]. exists (k ++ w). split; [by rewrite <-(assoc_L (++))|by exists k].
Qed.

(** End-equivalence is a right congruence. *)
Lemma endpos_eq_snoc s w w' c :
  endpos_eq s w w' → endpos_eq s (w ++ [c]) (w' ++ [c]).
Proof.
  assert (∀ u u', endpos_eq s u u' → ∀ x, x `prefix_of` s →
            u ++ [c] `suffix_of` x → u' ++ [c] `suffix_of` x) as Hhalf.
  { intros u u' Hu x Hx (y & -> & Hy)%suffix_snoc_r_inv.
    apply suffix_snoc_alt; [done|]. apply Hu; [|done].
    etrans; [|exact Hx]. by exists [c]. }
  intros Hw x Hx. split.
  - by apply Hhalf.
  - apply Hhalf; [by apply endpos_eq_sym|done].
Qed.

Lemma prefix_snoc_iff x s c :
  x `prefix_of` s ++ [c] ↔ x `prefix_of` s ∨ x = s ++ [c].
Proof.
  split.
  - intros [k Hk]. destruct k as [|a k _] using rev_ind.
    + right. by rewrite app_nil_r in Hk.
    + left. rewrite (assoc_L (++)) in Hk. apply app_inj_tail in Hk as [-> _].
      by exists k.
  - intros [Hx | ->]; [|done]. by apply prefix_app_r.
Qed.

Lemma endpos_eq_extend s c w w' :
  endpos_eq (s ++ [c]) w w' ↔
  endpos_eq s w w' ∧ (w `suffix_of` s ++ [c] ↔ w' `suffix_of` s ++ [c]).
Proof.
  split.
  - intros Hw. split.
    + intros x Hx. apply Hw, prefix_snoc_iff. by left.
    + by apply Hw.
  - intros [Hw Hs] x [Hx | ->]%prefix_snoc_iff; [by apply Hw|done].
Qed.

Lemma substring_extend w s c :
  substring w (s ++ [c]) ↔ substring w s ∨ w `suffix_of` s ++ [c].
Proof.
  rewrite !substring_occ. split.
  - intros (x & [Hx | ->]%prefix_snoc_iff & Hw); [left; by exists x|by right].
  - intros [(x & Hx & Hw) | Hw].
    + exists x. split; [|done]. apply prefix_snoc_iff. by left.
    + by exists (s ++ [c]).
Qed.

(** A string that is too long for [s] is equivalent to exactly the other
    strings that do not occur. *)
Lemma endpos_eq_absent s w w' :
  ¬ substring w s → ¬ substring w' s → endpos_eq s w w'.
Proof.
  rewrite !substring_occ. intros Hw Hw' x Hx. split; intros Hs.
  - destruct Hw. by exists x.
  - destruct Hw'. by exists x.
Qed.

(** If [a] is a suffix of an occurring [z] and equivalent to [b], then [b] is
    a suffix of [z] or [z] falls into the class of [b]. *)
Lemma endpos_eq_suffix_of_occurring s a b z :
  endpos_eq s a b → a `suffix_of` z → substring z s →
  b `suffix_of` z ∨ endpos_eq s z b.
Proof.
  intros Hab Haz (x & Hx & Hzx)%substring_occ.
  assert (b `suffix_of` x) as Hbx by (apply Hab; [done|by etrans]).
  destruct (suffix_weak_total b z x) as [Hbz | Hzb]; [done..|by left|].
  right. by apply (endpos_eq_between s a z b).
Qed.

End Strings.

(** * The reference: the longest common substring by exhaustive scan *)

Section Reference.
Context {A : Type} `{EqDecision A}.
Implicit Types s t w x y a b : list A.

(** [k] is the length of the longest substring common to [s] and [t]. *)
Definition is_lcs_len s t (k : nat) : Prop :=
  (∃ w, substring w s ∧ substring w t ∧ length w = k) ∧
  ∀ w, substring w s → substring w t → length w ≤ k.

(** [w] is the longest suffix of [x] that occurs in [s]. *)
Definition longest_suffix_in s x w : Prop :=
  w `suffix_of` x ∧ substring w s ∧
  ∀ y, y `suffix_of` x → substring y s → length y ≤ length w.

(** The start positions of a string: all its suffixes, longest first. *)
Fixpoint tails (l : list A) : list (list A) :=
  l :: match l with [] => [] | _ :: l' => tails l' end.

(** How far two strings agree from their first symbols on. *)
Fixpoint common_prefix_len a b : nat :=
  match a, b with
  | x :: a', y :: b' =>
      if decide (x = y) then S (common_prefix_len a' b') else 0
  | _, _ => 0
  end.

(** The scan: every start in [s] against every start in [t], keeping the
    longest agreement. *)
Definition lcs_brute s t : nat :=
  max_list (a ← tails s; b ← tails t; [common_prefix_len a b]).

Lemma elem_of_tails a l : a ∈ tails l ↔ a `suffix_of` l.
Proof.
  induction l as [|x l IH]; simpl.
  - rewrite list_elem_of_singleton. split; [by intros ->|apply suffix_nil_inv].
  - rewrite elem_of_cons, IH. split.
    + intros [-> | Hs]; [done|by apply suffix_cons_r].
    + intros [[|y k] Hk]; simplify_eq/=; [by left|right; by exists k].
Qed.

Lemma common_prefix_len_ge w a b :
  length w ≤ common_prefix_len (w ++ a) (w ++ b).
Proof.
  induction w as [|x w IH]; simpl; [lia|]. rewrite decide_True by done. lia.
Qed.

Lemma common_prefix_len_split a b :
  ∃ w a' b', a = w ++ a' ∧ b = w ++ b' ∧ length w = common_prefix_len a b.
Proof.
  revert b. induction a as [|x a IH]; intros b.
  { by exists [], [], b. }
  destruct b as [|y b]; [by exists [], (x :: a), []|]. simpl.
  destruct (decide (x = y)) as [->|Hne]; [|by exists [], (x :: a), (y :: b)].
  destruct (IH b) as (w & a' & b' & -> & -> & Hlen).
  exists (y :: w), a', b'. simpl. by rewrite Hlen.
Qed.

Lemma lcs_brute_elem s t a b :
  a `suffix_of` s → b `suffix_of` t → common_prefix_len a b ≤ lcs_brute s t.
Proof.
  intros Ha Hb. apply max_list_elem_of_le, list_elem_of_bind.
  exists a. split; [|by apply elem_of_tails].
  apply list_elem_of_bind. exists b. split; [|by apply elem_of_tails].
  by apply list_elem_of_singleton.
Qed.

Lemma lcs_brute_attained s t :
  ∃ a b, a `suffix_of` s ∧ b `suffix_of` t ∧
         lcs_brute s t = common_prefix_len a b.
Proof.
  assert (lcs_brute s t ∈ (a ← tails s; b ← tails t; [common_prefix_len a b]))
    as Hin.
  { apply max_list_elem_of. intros Hnil.
    assert (common_prefix_len s t ∈
              (a ← tails s; b ← tails t; [common_prefix_len a b])) as Hin.
    { apply list_elem_of_bind. exists s. split; [|by apply elem_of_tails].
      apply list_elem_of_bind. exists t. split; [|by apply elem_of_tails].
      by apply list_elem_of_singleton. }
    rewrite Hnil in Hin. by apply elem_of_nil in Hin. }
  apply list_elem_of_bind in Hin as (a & Hin & Ha%elem_of_tails).
  apply list_elem_of_bind in Hin as (b & Hin%list_elem_of_singleton & Hb%elem_of_tails).
  by exists a, b.
Qed.

(** The scan computes the length of the longest common substring. *)
Lemma lcs_brute_spec s t : is_lcs_len s t (lcs_brute s t).
Proof.
  split.
  - destruct (lcs_brute_attained s t) as (a & b & Ha & Hb & ->).
    destruct (common_prefix_len_split a b) as (w & a' & b' & -> & -> & Hlen).
    exists w. split_and!; [| |done].
    + eapply substring_prefix; [by exists a'|by apply suffix_substring].
    + eapply substring_prefix; [by exists b'|by apply suffix_substring].
  - intros w (a1 & b1 & ->) (a2 & b2 & ->).
    etrans; [apply (common_prefix_len_ge w b1 b2)|].
    apply lcs_brute_elem; by eexists.
Qed.

Lemma is_lcs_len_unique s t k k' :
  is_lcs_len s t k → is_lcs_len s t k' → k = k'.
Proof.
  intros [(w & Hs & Ht & <-) Hmax] [(w' & Hs' & Ht' & <-) Hmax'].
  specialize (Hmax _ Hs' Ht'). specialize (Hmax' _ Hs Ht). lia.
Qed.

Lemma is_lcs_len_nil s : is_lcs_len s [] 0.
Proof.
  split.
  - exists []. split_and!; [apply substring_nil..|done].
  - intros w _ Hw%substring_length. simpl in Hw. lia.
Qed.

(** One more symbol of [t]: a common substring is an old one or ends at the
    new symbol. *)
Lemma is_lcs_len_snoc s x c best w :
  is_lcs_len s x best → longest_suffix_in s (x ++ [c]) w →
  is_lcs_len s (x ++ [c])
    (if decide (best < length w) then length w else best).
Proof.
  intros [(w0 & Hs0 & Hx0 & Hlen0) Hmax] (Hsuf & Hsub & Hlong). split.
  - case_decide.
    + exists w. split_and!; [done|by apply suffix_substring|done].
    + exists w0. split_and!; [done| |done]. apply substring_extend. by left.
  - intros y Hys [Hyx | Hyx]%substring_extend.
    + specialize (Hmax _ Hys Hyx). case_decide; lia.
    + specialize (Hlong _ Hyx Hys). case_decide; lia.
Qed.

End Reference.
(** * The invariant of the construction *)

Section Invariant.
Context {A : Type} `{Countable A}.
Implicit Types (s w x y z : list A) (σ : SuffixAutomaton A) (st : list (State A)).
Implicit Types (rep : nat → list A) (c : A) (u v p q : nat).

(** [rep v] is the longest string that leads from the initial state to state
    [v]; the invariant ties the three fields of every state to it.  The
    strings that lead to [v] are the suffixes of [rep v] that are longer than
    [rep] of its suffix link, and they are exactly one class of
    end-equivalent substrings of [s]. *)
Record sam_inv (s : list A) (σ : SuffixAutomaton A) (rep : nat → list A) : Prop := {
  inv_last_lt : last σ < length (states σ);
  inv_last : rep (last σ) = s;
  inv_init : rep 0 = [];
  inv_count : length s < length (states σ);
  inv_len : ∀ v sv, states σ !! v = Some sv → len sv = length (rep v);
  inv_sub : ∀ v, v < length (states σ) → substring (rep v) s;
  inv_max : ∀ v w, v < length (states σ) →
    endpos_eq s w (rep v) → w `suffix_of` rep v;
  inv_inj : ∀ v v', v < length (states σ) → v' < length (states σ) →
    endpos_eq s (rep v) (rep v') → v = v';
  inv_next_some : ∀ v sv c q, states σ !! v = Some sv → next sv !! c = Some q →
    q < length (states σ) ∧ endpos_eq s (rep v ++ [c]) (rep q);
  inv_next_none : ∀ v sv c, states σ !! v = Some sv → next sv !! c = None →
    ¬ substring (rep v ++ [c]) s;
  inv_link0 : ∀ sv, states σ !! 0 = Some sv → link sv = (-1)%Z;
  inv_link : ∀ v sv, 0 < v → states σ !! v = Some sv →
    ∃ u, link sv = Z.of_nat u ∧ u < length (states σ) ∧
         rep u `suffix_of` rep v ∧ length (rep u) < length (rep v) ∧
         ∀ x, x `suffix_of` rep v → length (rep u) < length x →
              endpos_eq s x (rep v)
}.

(** The walk of the claims: from state [v], follow the [next] maps along
    [w]; [None] when some symbol has no transition. *)
Fixpoint walk (st : list (State A)) (v : nat) (w : list A) : option nat :=
  match w with
  | [] => Some v
  | c :: w' =>
      match st !! v with
      | Some sv =>
          match next sv !! c with
          | Some q => walk st q w'
          | None => None
          end
      | None => None
      end
  end.

Lemma walk_app st v w1 w2 :
  walk st v (w1 ++ w2) = walk st v w1 ≫= λ u, walk st u w2.
Proof.
  revert v. induction w1 as [|c w1 IH]; intros v; simpl; [done|].
  destruct (st !! v) as [sv|]; [|done].
  destruct (next sv !! c) as [q|]; [|done]. apply IH.
Qed.

Section with_inv.
Context {s σ rep} (Hinv : sam_inv s σ rep).

Lemma inv_pos : 0 < length (states σ).
Proof. pose proof (inv_last_lt _ _ _ Hinv). lia. Qed.

(** Every substring of [s] leads to a state, and to the one of its class. *)
Lemma walk_complete w :
  substring w s →
  ∃ v, walk (states σ) 0 w = Some v ∧ v < length (states σ) ∧
       endpos_eq s w (rep v).
Proof.
  induction w as [|c w IH] using rev_ind; intros Hw.
  - exists 0. split_and!; [done|apply inv_pos|].
    rewrite (inv_init _ _ _ Hinv). apply endpos_eq_refl.
  - destruct IH as (v & Hwalk & Hv & Heq); [by eapply substring_snoc_l|].
    rewrite walk_app, Hwalk. simpl.
    destruct (lookup_lt_is_Some_2 _ _ Hv) as [sv Hsv]. rewrite Hsv.
    pose proof (endpos_eq_snoc _ _ _ c Heq) as Heq'.
    destruct (next sv !! c) as [q|] eqn:Hq.
    + destruct (inv_next_some _ _ _ Hinv _ _ _ _ Hsv Hq) as [Hlt Hvq].
      exists q. split_and!; [done..|]. by eapply endpos_eq_trans.
    + destruct (inv_next_none _ _ _ Hinv _ _ _ Hsv Hq).
      by eapply endpos_eq_substring.
Qed.

(** Conversely a walk that finds all its transitions spells a substring. *)
Lemma walk_sound w v :
  walk (states σ) 0 w = Some v →
  v < length (states σ) ∧ substring w s ∧ endpos_eq s w (rep v).
Proof.
  revert v. induction w as [|c w IH] using rev_ind; intros v.
  - intros [= <-]. split_and!; [apply inv_pos|apply substring_nil|].
    rewrite (inv_init _ _ _ Hinv). apply endpos_eq_refl.
  - rewrite walk_app. destruct (walk (states σ) 0 w) as [u|]; [|done].
    destruct (IH u eq_refl) as (Hu & Hsub & Heq). simpl.
    destruct (states σ !! u) as [su|] eqn:Hsu; [|done].
    destruct (next su !! c) as [q|] eqn:Hq; [|done]. intros [= <-].
    destruct (inv_next_some _ _ _ Hinv _ _ _ _ Hsu Hq) as [Hlt Hvq].
    pose proof (endpos_eq_snoc _ _ _ c Heq) as Heq'.
    assert (endpos_eq s (w ++ [c]) (rep q)) as Hwq by by eapply endpos_eq_trans.
    split_and!; [done| |done].
    eapply endpos_eq_substring; [by apply endpos_eq_sym|].
    by apply (inv_sub _ _ _ Hinv).
Qed.

Lemma inv_cover w :
  substring w s → ∃ v, v < length (states σ) ∧ endpos_eq s w (rep v).
Proof. intros (v & _ & Hv)%walk_complete. by exists v. Qed.

(** The state of a suffix of [s]: its [rep] is a suffix of [s] too. *)
Lemma inv_cover_suffix y :
  y `suffix_of` s →
  ∃ v, v < length (states σ) ∧ endpos_eq s y (rep v) ∧
       rep v `suffix_of` s ∧ y `suffix_of` rep v.
Proof.
  intros Hy. destruct (inv_cover y) as (v & Hv & Heq); [by apply suffix_substring|].
  exists v. split_and!; [done..| |].
  - by apply Heq.
  - by apply (inv_max _ _ _ Hinv).
Qed.

Lemma inv_rep_length v : v < length (states σ) → length (rep v) ≤ length s.
Proof. intros Hv. by apply substring_length, (inv_sub _ _ _ Hinv). Qed.

End with_inv.


(** ** The suffix chain *)

(** The states on the chain of suffix links from [last] are those whose
    longest string is a suffix of [s]; [chain_above k] picks the ones whose
    longest string has length at least [k]. *)
Definition chain_above (s : list A) (σ : SuffixAutomaton A) (rep : nat → list A)
    (k v : nat) : Prop :=
  v < length (states σ) ∧ rep v `suffix_of` s ∧ k ≤ length (rep v).

Global Instance chain_above_dec s σ rep k v : Decision (chain_above s σ rep k v).
Proof. unfold chain_above. apply _. Defined.

(** ** One more symbol: the classes of [s ++ [c]] *)

(** [z] is the longest suffix of [s ++ [c]] that occurs in [s].  The
    lemmas of this section are what the proof of [extend] needs to know about
    the end-equivalence of [s ++ [c]]; the automaton enters only through the
    invariant for [s]. *)
Section step.
Context {s σ rep} (Hinv : sam_inv s σ rep) (c : A) (z : list A).
Context (Hz_suf : z `suffix_of` s ++ [c]).
Context (Hz_sub : substring z s).
Context (Hz_max : ∀ y, y `suffix_of` s ++ [c] → substring y s → length y ≤ length z).

Local Abbreviation n := (length (states σ)).
Local Abbreviation s' := (s ++ [c]).

(** The states whose [next] the first loop of [extend] extends. *)
Local Abbreviation walked := (chain_above s σ rep (length z)).

Lemma z_length : length z ≤ length s.
Proof. by apply substring_length. Qed.

Lemma long_suffix_absent y :
  y `suffix_of` s' → length z < length y → ¬ substring y s.
Proof. intros Hy Hlt Hsub. specialize (Hz_max y Hy Hsub). lia. Qed.

Lemma suffix_of_shorter (y x w : list A) :
  y `suffix_of` w → x `suffix_of` w → length y ≤ length x → y `suffix_of` x.
Proof.
  intros Hy Hx Hle. destruct (suffix_weak_total y x w) as [|Hxy]; [done..|].
  by rewrite (suffix_length_eq _ _ Hxy Hle).
Qed.

Lemma occurring_suffix y : y `suffix_of` s' → substring y s → y `suffix_of` z.
Proof. intros Hy Hsub. eapply suffix_of_shorter; [done..|]. by apply Hz_max. Qed.

(** The new class: the suffixes of [s ++ [c]] longer than [z]. *)
Lemma new_class y :
  y `suffix_of` s' → length z < length y → endpos_eq s' y s'.
Proof.
  intros Hy Hlt. apply endpos_eq_extend. split; [|done].
  apply endpos_eq_absent; [by apply long_suffix_absent|].
  apply substring_too_long. rewrite length_app. simpl. lia.
Qed.

(** An old equivalence survives unless exactly one side is a new suffix. *)
Lemma old_class_lift a b :
  endpos_eq s a b → a `suffix_of` b →
  (a `suffix_of` s' → b `suffix_of` s') → endpos_eq s' a b.
Proof.
  intros Hab Hsuf Hnew. apply endpos_eq_extend. split; [done|].
  split; [done|]. intros Hb. by etrans.
Qed.

(** A string of an old class that is a suffix of [s ++ [c]]: the longest
    string of its class is a suffix of [z], or the class is that of [z]. *)
Lemma class_of_occurring_suffix a v :
  v < n → endpos_eq s a (rep v) → a `suffix_of` s' →
  rep v `suffix_of` z ∨ endpos_eq s z (rep v).
Proof.
  intros Hv Ha Has. eapply endpos_eq_suffix_of_occurring; [done| |done].
  apply occurring_suffix; [done|].
  eapply endpos_eq_substring; [by apply endpos_eq_sym|].
  by apply (inv_sub _ _ _ Hinv).
Qed.

Lemma walked_absent v : walked v → ¬ substring (rep v ++ [c]) s.
Proof.
  intros (Hv & Hsuf & Hle). apply long_suffix_absent.
  - by apply suffix_snoc_alt.
  - rewrite length_app. simpl. lia.
Qed.

Lemma unwalked_suffix v :
  v < n → rep v `suffix_of` s → ¬ walked v → rep v ++ [c] `suffix_of` z.
Proof.
  intros Hv Hsuf Hnw. eapply suffix_of_shorter; [|done|].
  - by apply suffix_snoc_alt.
  - rewrite length_app. simpl.
    destruct (decide (length z ≤ length (rep v))); [|lia].
    destruct Hnw. by split_and!.
Qed.


(** Transitions and suffix links of the automaton for [s] that [extend]
    leaves in place are still right for [s ++ [c]]. *)
Lemma old_next_some v sv c' q :
  states σ !! v = Some sv → next sv !! c' = Some q →
  (rep v ++ [c'] `suffix_of` s' → endpos_eq s z (rep q) → rep q `suffix_of` s') →
  q < n ∧ endpos_eq s' (rep v ++ [c']) (rep q).
Proof.
  intros Hsv Hq Hzq.
  destruct (inv_next_some _ _ _ Hinv _ _ _ _ Hsv Hq) as [Hlt Heq].
  split; [done|]. apply old_class_lift; [done|by apply (inv_max _ _ _ Hinv)|].
  intros Hsuf.
  destruct (class_of_occurring_suffix _ _ Hlt Heq Hsuf) as [Hqz | Hqz].
  - by etrans.
  - by apply Hzq.
Qed.

Lemma old_next_none v sv c' :
  states σ !! v = Some sv → next sv !! c' = None →
  (c' = c → ¬ walked v) →
  ¬ substring (rep v ++ [c']) s'.
Proof.
  intros Hsv Hq Hnw [Hsub | [-> Hsuf]%suffix_snoc_iff]%substring_extend.
  - by eapply (inv_next_none _ _ _ Hinv).
  - eapply (inv_next_none _ _ _ Hinv); [done..|].
    eapply substring_suffix; [|exact Hz_sub].
    apply unwalked_suffix; [by eapply lookup_lt_Some|done|by apply Hnw].
Qed.

Lemma old_link v sv :
  0 < v → states σ !! v = Some sv →
  (endpos_eq s z (rep v) → rep v `suffix_of` s') →
  ∃ u, link sv = Z.of_nat u ∧ u < n ∧
       rep u `suffix_of` rep v ∧ length (rep u) < length (rep v) ∧
       ∀ x, x `suffix_of` rep v → length (rep u) < length x →
            endpos_eq s' x (rep v).
Proof.
  intros Hpos Hsv Hzv.
  destruct (inv_link _ _ _ Hinv _ _ Hpos Hsv) as (u & Hu & Hlt & Hsuf & Hlen & Hcls).
  exists u. split_and!; [done..|]. intros x Hx Hxl.
  apply old_class_lift; [by apply Hcls|done|]. intros Hxs.
  destruct (class_of_occurring_suffix x v) as [Hvz | Hvz];
    [by eapply lookup_lt_Some|by apply Hcls|done| |by apply Hzv].
  by etrans.
Qed.

(** An old state and the new state [n] are in different classes. *)
Lemma old_not_new w : substring w s → ¬ endpos_eq s' w s'.
Proof.
  intros (x & Hx & Hwx)%substring_occ Heq.
  assert (s' `suffix_of` x) as Hs'x.
  { apply Heq; [|done]. apply prefix_snoc_iff. by left. }
  apply suffix_length in Hs'x. apply prefix_length in Hx.
  rewrite length_app in Hs'x. simpl in Hs'x. lia.
Qed.

(** [rep] for the automaton after [extend]: the new state [n] stands for
    [s ++ [c]], and the clone, when there is one, for [z]. *)
Definition rep_step (v : nat) : list A :=
  if decide (v = n) then s' else if decide (v = S n) then z else rep v.

Lemma rep_step_old v : v < n → rep_step v = rep v.
Proof. intros Hv. unfold rep_step. by rewrite !decide_False by lia. Qed.

Lemma rep_step_cur : rep_step n = s'.
Proof. unfold rep_step. by rewrite decide_True. Qed.

Lemma rep_step_clone : rep_step (S n) = z.
Proof. unfold rep_step. rewrite decide_False by lia. by rewrite decide_True. Qed.

Lemma walked_lt v : walked v → v < n.
Proof. by intros [? _]. Qed.

Lemma walked_new_class v : walked v → endpos_eq s' (rep v ++ [c]) s'.
Proof.
  intros (Hv & Hsuf & Hle). apply new_class.
  - by apply suffix_snoc_alt.
  - rewrite length_app. simpl. lia.
Qed.

(** *** [extend] without a clone *)

(** The suffix link of the new state goes to the state [lk] of [z]. *)
Lemma inv_step_noclone lk st' :
  lk < n → rep lk = z →
  length st' = S n →
  (∀ v sv, states σ !! v = Some sv →
     st' !! v = Some (if decide (walked v)
                      then set_next (<[c := n]> (next sv)) sv else sv)) →
  st' !! n = Some {| next := ∅; link := Z.of_nat lk; len := length s + 1 |} →
  sam_inv s' {| states := st'; last := n |} rep_step.
Proof.
  intros Hlk Hreplk Hlen Hold Hcur.
  assert (∀ v sv', st' !! v = Some sv' →
    (v = n ∧ sv' = {| next := ∅; link := Z.of_nat lk; len := length s + 1 |}) ∨
    (v < n ∧ ∃ sv, states σ !! v = Some sv ∧
       sv' = if decide (walked v)
             then set_next (<[c := n]> (next sv)) sv else sv)) as Hcases.
  { intros v sv' Hv. pose proof (lookup_lt_Some _ _ _ Hv) as Hlt.
    destruct (decide (v = n)) as [->|Hne].
    - left. split; [done|]. congruence.
    - right. split; [lia|].
      destruct (lookup_lt_is_Some_2 (states σ) v) as [sv Hsv]; [lia|].
      exists sv. split; [done|]. rewrite (Hold _ _ Hsv) in Hv. congruence. }
  assert (∀ q, q < n → endpos_eq s z (rep q) → rep q `suffix_of` s') as Hzq.
  { intros q Hq Heq. rewrite <-Hreplk in Heq.
    apply (inv_inj _ _ _ Hinv) in Heq as <-; [|done..]. by rewrite Hreplk. }
  pose proof (inv_pos Hinv) as Hpos.
  split; simpl.
  - lia.
  - apply rep_step_cur.
  - rewrite rep_step_old by done. apply (inv_init _ _ _ Hinv).
  - rewrite length_app. simpl. pose proof (inv_count _ _ _ Hinv). lia.
  - intros v sv' [[-> ->] | (Hv & sv & Hsv & ->)]%Hcases.
    + rewrite rep_step_cur, length_app. done.
    + rewrite rep_step_old by done.
      rewrite <-(inv_len _ _ _ Hinv _ _ Hsv). by destruct (decide (walked v)).
  - intros v Hv. destruct (decide (v = n)) as [->|Hne].
    + rewrite rep_step_cur. apply substring_refl.
    + rewrite rep_step_old by lia. apply substring_extend. left.
      apply (inv_sub _ _ _ Hinv). lia.
  - intros v w Hv Heq. destruct (decide (v = n)) as [->|Hne].
    + rewrite rep_step_cur in *. by apply Heq.
    + rewrite rep_step_old in * by lia.
      apply endpos_eq_extend in Heq as [Heq _].
      apply (inv_max _ _ _ Hinv); [lia|done].
  - intros v v' Hv Hv' Heq.
    destruct (decide (v = n)) as [->|Hne], (decide (v' = n)) as [->|Hne'];
      [done| | |].
    + rewrite rep_step_cur, rep_step_old in Heq by lia.
      destruct (old_not_new (rep v')); [|by apply endpos_eq_sym].
      apply (inv_sub _ _ _ Hinv). lia.
    + rewrite rep_step_cur, rep_step_old in Heq by lia.
      destruct (old_not_new (rep v)); [|done].
      apply (inv_sub _ _ _ Hinv). lia.
    + rewrite !rep_step_old in Heq by lia.
      apply endpos_eq_extend in Heq as [Heq _].
      apply (inv_inj _ _ _ Hinv); [lia..|done].
  - intros v sv' c' q [[-> ->] | (Hv & sv & Hsv & ->)]%Hcases Hq; [done|].
    rewrite (rep_step_old v) by done.
    destruct (decide (walked v)) as [Hw|Hnw]; simpl in Hq.
    + destruct (decide (c' = c)) as [->|Hne].
      * rewrite lookup_insert_eq in Hq. injection Hq as <-.
        rewrite rep_step_cur. split; [lia|]. by apply walked_new_class.
      * rewrite lookup_insert_ne in Hq by done.
        destruct (old_next_some v sv c' q) as [Hqlt Heq]; [done..| |].
        { intros _ Heq. eapply Hzq; [|done].
          by eapply (inv_next_some _ _ _ Hinv). }
        rewrite rep_step_old by done. split; [lia|done].
    + destruct (old_next_some v sv c' q) as [Hqlt Heq]; [done..| |].
      { intros _ Heq. eapply Hzq; [|done].
        by eapply (inv_next_some _ _ _ Hinv). }
      rewrite rep_step_old by done. split; [lia|done].
  - intros v sv' c' [[-> ->] | (Hv & sv & Hsv & ->)]%Hcases Hq.
    + rewrite rep_step_cur. apply substring_too_long.
      rewrite !length_app. simpl. lia.
    + rewrite rep_step_old by done.
      destruct (decide (walked v)) as [Hw|Hnw]; simpl in Hq.
      * destruct (decide (c' = c)) as [->|Hne].
        { by rewrite lookup_insert_eq in Hq. }
        rewrite lookup_insert_ne in Hq by done.
        by eapply old_next_none.
      * by eapply old_next_none.
  - intros sv' [[? _] | (Hv & sv & Hsv & ->)]%Hcases; [lia|].
    pose proof (inv_link0 _ _ _ Hinv _ Hsv).
    by destruct (decide (walked 0)).
  - intros v sv' Hvpos [[-> ->] | (Hv & sv & Hsv & ->)]%Hcases.
    + exists lk. simpl. rewrite rep_step_cur, rep_step_old, Hreplk by done.
      split_and!; [done|lia|done| |].
      * rewrite length_app. simpl. pose proof z_length. lia.
      * intros x Hx Hxl. by apply new_class.
    + destruct (old_link v sv) as (u & Hu & Hult & Hsuf & Hlenu & Hcls);
        [done..| |].
      { by apply Hzq. }
      exists u. rewrite !rep_step_old by done.
      split_and!; [|lia|done..].
      by destruct (decide (walked v)).
Qed.

(** *** [extend] with a clone *)

(** The states whose transition on [c] the second loop moves from [q] to
    the clone. *)
Definition redirected (q v : nat) : Prop :=
  v < n ∧ rep v `suffix_of` s ∧
  (states σ !! v ≫= λ sv, next sv !! c) = Some q.

Global Instance redirected_dec q v : Decision (redirected q v).
Proof. unfold redirected. apply _. Defined.

(** What [extend] makes of an old state in that case. *)
Definition step_state (q v : nat) (sv : State A) : State A :=
  {| next := if decide (walked v) then <[c := n]> (next sv)
             else if decide (redirected q v) then <[c := S n]> (next sv)
             else next sv;
     link := if decide (v = q) then Z.of_nat (S n) else link sv;
     len := len sv |}.

Lemma inv_step_clone q sq st' :
  states σ !! q = Some sq →
  endpos_eq s z (rep q) → length z < length (rep q) →
  length st' = S (S n) →
  (∀ v sv, states σ !! v = Some sv → st' !! v = Some (step_state q v sv)) →
  st' !! n = Some {| next := ∅; link := Z.of_nat (S n); len := length s + 1 |} →
  st' !! S n = Some {| next := if decide (walked q) then <[c := n]> (next sq)
                               else next sq;
                       link := link sq; len := length z |} →
  sam_inv s' {| states := st'; last := n |} rep_step.
Proof.
  intros Hsq Hzq Hzlen Hlen Hold Hcur Hclone.
  pose proof (lookup_lt_Some _ _ _ Hsq) as Hq.
  set (cur_state := {| next := ∅; link := Z.of_nat (S n); len := length s + 1 |}) in *.
  set (clone_state := {| next := if decide (walked q) then <[c := n]> (next sq)
                                 else next sq;
                         link := link sq; len := length z |}) in *.
  assert (∀ v sv', st' !! v = Some sv' →
    (v = n ∧ sv' = cur_state) ∨ (v = S n ∧ sv' = clone_state) ∨
    (v < n ∧ ∃ sv, states σ !! v = Some sv ∧ sv' = step_state q v sv)) as Hcases.
  { intros v sv' Hv. pose proof (lookup_lt_Some _ _ _ Hv) as Hlt.
    destruct (decide (v = n)) as [->|Hne]; [left; split; [done|congruence]|].
    destruct (decide (v = S n)) as [->|Hne'];
      [right; left; split; [done|congruence]|].
    right. right. split; [lia|].
    destruct (lookup_lt_is_Some_2 (states σ) v) as [sv Hsv]; [lia|].
    exists sv. split; [done|]. rewrite (Hold _ _ Hsv) in Hv. congruence. }
  assert (z `suffix_of` rep q) as Hzsuf by by apply (inv_max _ _ _ Hinv).
  assert (¬ rep q `suffix_of` s') as Hqnew.
  { intros Hsuf. apply (inv_sub _ _ _ Hinv) in Hq.
    specialize (Hz_max _ Hsuf Hq). lia. }
  assert (∀ v, v < n → endpos_eq s z (rep v) → v = q) as Hclass.
  { intros v Hv Heq. apply (inv_inj _ _ _ Hinv); [done..|].
    eapply endpos_eq_trans; [by apply endpos_eq_sym|done]. }
  assert (0 < q) as Hqpos.
  { destruct (decide (q = 0)) as [->|]; [|lia].
    rewrite (inv_init _ _ _ Hinv) in Hzlen. simpl in Hzlen. lia. }
  destruct (inv_link _ _ _ Hinv _ _ Hqpos Hsq)
    as (u0 & Hu0 & Hu0lt & Hu0suf & Hu0len & Hu0cls).
  assert (length (rep u0) < length z) as Hu0z.
  { destruct (decide (length z ≤ length (rep u0))) as [Hle|]; [|lia].
    assert (u0 = q) as ->; [|lia].
    apply (inv_inj _ _ _ Hinv); [done..|].
    apply (endpos_eq_between s z); [|done..].
    by eapply suffix_of_shorter. }
  pose proof (inv_pos Hinv) as Hpos.
  split; simpl; rewrite ?Hlen.
  - lia.
  - apply rep_step_cur.
  - rewrite rep_step_old by done. apply (inv_init _ _ _ Hinv).
  - rewrite length_app. simpl. pose proof (inv_count _ _ _ Hinv). lia.
  - intros v sv' [[-> ->] | [[-> ->] | (Hv & sv & Hsv & ->)]]%Hcases.
    + rewrite rep_step_cur, length_app. done.
    + by rewrite rep_step_clone.
    + rewrite rep_step_old by done. simpl. by apply (inv_len _ _ _ Hinv).
  - intros v Hv. destruct (decide (v = n)) as [->|Hne].
    { rewrite rep_step_cur. apply substring_refl. }
    apply substring_extend. left.
    destruct (decide (v = S n)) as [->|Hne'].
    { by rewrite rep_step_clone. }
    rewrite rep_step_old by lia. apply (inv_sub _ _ _ Hinv). lia.
  - intros v w Hv Heq. destruct (decide (v = n)) as [->|Hne].
    { rewrite rep_step_cur in *. by apply Heq. }
    destruct (decide (v = S n)) as [->|Hne'].
    { rewrite rep_step_clone in *.
      apply endpos_eq_extend in Heq as [Heq Hsuf].
      apply occurring_suffix; [by apply Hsuf|].
      eapply endpos_eq_substring; [by apply endpos_eq_sym|done]. }
    rewrite rep_step_old in * by lia.
    apply endpos_eq_extend in Heq as [Heq _].
    apply (inv_max _ _ _ Hinv); [lia|done].
  - assert (∀ v, v < S (S n) → v ≠ n → substring (rep_step v) s) as Holdsub.
    { intros v Hv Hne. destruct (decide (v = S n)) as [->|Hne'].
      - by rewrite rep_step_clone.
      - rewrite rep_step_old by lia. apply (inv_sub _ _ _ Hinv). lia. }
    assert (∀ v, v < n → ¬ endpos_eq s' (rep v) z) as Hnoclone.
    { intros v Hv Heq. apply endpos_eq_extend in Heq as [Heq Hsuf].
      assert (v = q) as -> by by apply Hclass, endpos_eq_sym.
      by apply Hqnew, Hsuf. }
    intros v v' Hv Hv' Heq.
    destruct (decide (v = n)) as [->|Hne], (decide (v' = n)) as [->|Hne'];
      [done| | |].
    { rewrite rep_step_cur in Heq.
      destruct (old_not_new (rep_step v')); [|by apply endpos_eq_sym].
      apply Holdsub; [lia|done]. }
    { rewrite rep_step_cur in Heq.
      destruct (old_not_new (rep_step v)); [|done]. apply Holdsub; [lia|done]. }
    destruct (decide (v = S n)) as [->|Hnc], (decide (v' = S n)) as [->|Hnc'];
      [done| | |].
    { rewrite rep_step_clone, rep_step_old in Heq by lia.
      destruct (Hnoclone v'); [lia|by apply endpos_eq_sym]. }
    { rewrite rep_step_clone, rep_step_old in Heq by lia.
      destruct (Hnoclone v); [lia|done]. }
    rewrite !rep_step_old in Heq by lia.
    apply endpos_eq_extend in Heq as [Heq _].
    apply (inv_inj _ _ _ Hinv); [lia..|done].
  - intros v sv' c' q' [[-> ->] | [[-> ->] | (Hv & sv & Hsv & ->)]]%Hcases Hq';
      [done| |].
    + (* the clone *)
      rewrite rep_step_clone. simpl in Hq'.
      assert (next sq !! c' = Some q' → q' < S (S n) ∧
              endpos_eq s' (z ++ [c']) (rep_step q')) as Hcopy.
      { intros Hnq.
        destruct (inv_next_some _ _ _ Hinv _ _ _ _ Hsq Hnq) as [Hlt Heq].
        rewrite rep_step_old by done. split; [lia|].
        assert (endpos_eq s (z ++ [c']) (rep q')) as Heq'.
        { eapply endpos_eq_trans; [|done]. by apply endpos_eq_snoc. }
        apply old_class_lift; [done|by apply (inv_max _ _ _ Hinv)|].
        intros Hsuf. exfalso.
        assert (length (z ++ [c']) ≤ length z) as Hbad.
        { apply Hz_max; [done|].
          eapply endpos_eq_substring; [by apply endpos_eq_sym|].
          by apply (inv_sub _ _ _ Hinv). }
        rewrite length_app in Hbad. simpl in Hbad. lia. }
      destruct (decide (walked q)) as [Hw|Hnw]; [|by apply Hcopy].
      destruct (decide (c' = c)) as [->|Hne].
      * rewrite lookup_insert_eq in Hq'. injection Hq' as <-.
        rewrite rep_step_cur. split; [lia|].
        destruct Hw as (_ & Hqs & _). apply new_class.
        -- apply suffix_snoc_alt; [done|]. by etrans.
        -- rewrite length_app. simpl. lia.
      * rewrite lookup_insert_ne in Hq' by done. by apply Hcopy.
    + rewrite (rep_step_old v) by done. simpl in Hq'.
      assert (next sv !! c' = Some q' → ¬ (c' = c ∧ redirected q v) →
              q' < S (S n) ∧ endpos_eq s' (rep v ++ [c']) (rep_step q')) as Hkeep.
      { intros Hnq Hnr.
        destruct (old_next_some v sv c' q') as [Hqlt Heq]; [done..| |].
        { intros [-> Hvs]%suffix_snoc_iff Heq. destruct Hnr. split; [done|].
          assert (q' = q) as ->.
          { apply Hclass; [|done]. by eapply (inv_next_some _ _ _ Hinv). }
          split_and!; [done..|]. by rewrite Hsv. }
        rewrite rep_step_old by done. split; [lia|done]. }
      destruct (decide (walked v)) as [Hw|Hnw].
      { destruct (decide (c' = c)) as [->|Hne].
        - rewrite lookup_insert_eq in Hq'. injection Hq' as <-.
          rewrite rep_step_cur. split; [lia|]. by apply walked_new_class.
        - rewrite lookup_insert_ne in Hq' by done. apply Hkeep; [done|].
          by intros [? _]. }
      destruct (decide (redirected q v)) as [Hr|Hnr].
      { destruct (decide (c' = c)) as [->|Hne].
        - rewrite lookup_insert_eq in Hq'. injection Hq' as <-.
          rewrite rep_step_clone. split; [lia|].
          destruct Hr as (_ & Hvs & Hvq). rewrite Hsv in Hvq. simpl in Hvq.
          destruct (inv_next_some _ _ _ Hinv _ _ _ _ Hsv Hvq) as [_ Heq].
          apply endpos_eq_extend. split.
          + eapply endpos_eq_trans; [done|]. by apply endpos_eq_sym.
          + split; [done|]. intros _. by apply suffix_snoc_alt.
        - rewrite lookup_insert_ne in Hq' by done. apply Hkeep; [done|].
          by intros [? _]. }
      apply Hkeep; [done|]. by intros [_ ?].
  - intros v sv' c' [[-> ->] | [[-> ->] | (Hv & sv & Hsv & ->)]]%Hcases Hq'.
    + rewrite rep_step_cur. apply substring_too_long.
      rewrite !length_app. simpl. lia.
    + (* the clone *)
      rewrite rep_step_clone. simpl in Hq'.
      assert (next sq !! c' = None) as Hnq.
      { destruct (decide (walked q)); [|done].
        destruct (decide (c' = c)) as [->|Hne].
        - by rewrite lookup_insert_eq in Hq'.
        - by rewrite lookup_insert_ne in Hq'. }
      intros [Hsub | [-> Hzs]%suffix_snoc_iff]%substring_extend.
      * eapply (inv_next_none _ _ _ Hinv); [done..|].
        eapply endpos_eq_substring; [|done]. by apply endpos_eq_snoc.
      * assert (walked q) as Hw.
        { split_and!; [done| |lia]. by apply Hzq. }
        rewrite decide_True in Hq' by done.
        by rewrite lookup_insert_eq in Hq'.
    + rewrite rep_step_old by done. simpl in Hq'.
      destruct (decide (walked v)) as [Hw|Hnw].
      { destruct (decide (c' = c)) as [->|Hne].
        - by rewrite lookup_insert_eq in Hq'.
        - rewrite lookup_insert_ne in Hq' by done. by eapply old_next_none. }
      destruct (decide (redirected q v)) as [Hr|Hnr]; [|by eapply old_next_none].
      destruct (decide (c' = c)) as [->|Hne].
      * by rewrite lookup_insert_eq in Hq'.
      * rewrite lookup_insert_ne in Hq' by done. by eapply old_next_none.
  - intros sv' [[? _] | [[? _] | (Hv & sv & Hsv & ->)]]%Hcases; [lia..|].
    simpl. rewrite decide_False by lia. by apply (inv_link0 _ _ _ Hinv).
  - intros v sv' Hvpos [[-> ->] | [[-> ->] | (Hv & sv & Hsv & ->)]]%Hcases.
    + exists (S n). simpl. rewrite rep_step_cur, rep_step_clone.
      split_and!; [done|lia|done| |].
      * rewrite length_app. simpl. pose proof z_length. lia.
      * intros x Hx Hxl. by apply new_class.
    + (* the clone *)
      exists u0. simpl. rewrite rep_step_clone, rep_step_old by done.
      split_and!; [done|lia| |done|].
      * eapply suffix_of_shorter; [done..|lia].
      * intros x Hx Hxl. apply endpos_eq_extend. split.
        -- eapply endpos_eq_trans; [|by apply endpos_eq_sym].
           apply Hu0cls; [by etrans|done].
        -- split; [done|]. intros _. by etrans.
    + simpl. destruct (decide (v = q)) as [->|Hne].
      * exists (S n). rewrite rep_step_clone, rep_step_old by done.
        split_and!; [done|lia|done..|].
        intros x Hx Hxl. apply endpos_eq_extend. split.
        -- apply Hu0cls; [done|lia].
        -- split; [|by intros ?%Hqnew]. intros Hxs. exfalso.
           assert (length x ≤ length z); [|lia].
           apply Hz_max; [done|]. eapply substring_suffix; [exact Hx|].
           by apply (inv_sub _ _ _ Hinv).
      * destruct (old_link v sv) as (u & Hu & Hult & Hsuf & Hlenu & Hcls);
          [done..| |].
        { intros Heq. by destruct Hne; apply Hclass. }
        exists u. rewrite !rep_step_old by done.
        split_and!; [done|lia|done..].
Qed.

End step.

(** ** Running [extend] *)

(** The list of states with a transition on [c] to [tgt] added to (or
    replaced in) the states picked by [P]. *)
Definition upd_next (P : nat → bool) (c : A) (tgt : nat)
    (st : list (State A)) : list (State A) :=
  imap (λ v sv, if P v then set_next (<[c := tgt]> (next sv)) sv else sv) st.

Lemma upd_next_length P c tgt st : length (upd_next P c tgt st) = length st.
Proof. apply length_imap. Qed.

Lemma upd_next_lookup P c tgt st v :
  upd_next P c tgt st !! v
  = (λ sv, if P v then set_next (<[c := tgt]> (next sv)) sv else sv) <$> st !! v.
Proof. apply list_lookup_imap. Qed.

Lemma upd_next_ext P P' c tgt st :
  (∀ v, v < length st → P v = P' v) →
  upd_next P c tgt st = upd_next P' c tgt st.
Proof.
  intros HP. apply list_eq. intros v. rewrite !upd_next_lookup.
  destruct (st !! v) eqn:Hv; [|done]. simpl.
  rewrite HP; [done|]. by eapply lookup_lt_Some.
Qed.

Lemma upd_next_none c tgt st : upd_next (λ _, false) c tgt st = st.
Proof.
  apply list_eq. intros v. rewrite upd_next_lookup. by destruct (st !! v).
Qed.

Lemma upd_next_insert P c tgt st v sv :
  st !! v = Some sv →
  <[v := set_next (<[c := tgt]> (next sv)) sv]> (upd_next P c tgt st)
  = upd_next (λ u, if decide (u = v) then true else P u) c tgt st.
Proof.
  intros Hv. apply list_eq. intros u. destruct (decide (u = v)) as [->|Hne].
  - rewrite list_lookup_insert_eq
      by (rewrite upd_next_length; by eapply lookup_lt_Some).
    rewrite upd_next_lookup, Hv. simpl. by rewrite decide_True.
  - rewrite list_lookup_insert_ne by done. rewrite !upd_next_lookup.
    destruct (st !! u); [|done]. simpl. by rewrite decide_False.
Qed.

Lemma extend_walk_S fuel (ch : A) cur (i : Z) :
  extend_walk (S fuel) ch cur i =
    if decide (i = (-1)%Z) then ret i else
    let* sp := get_state i in
    match next sp !! ch with
    | Some _ => ret i
    | None =>
        do modify_state i (λ sv, set_next (<[ch := cur]> (next sv)) sv) then
        let* sp := get_state i in
        extend_walk fuel ch cur (link sp)
    end.
Proof. done. Qed.

Lemma extend_redirect_S fuel (ch : A) q clone (i : Z) :
  extend_redirect (S fuel) ch q clone i =
    if decide (i = (-1)%Z) then ret i else
    let* sp := get_state i in
    if decide (next sp !! ch = Some q) then
      do modify_state i (λ sv, set_next (<[ch := clone]> (next sv)) sv) then
      let* sp := get_state i in
      extend_redirect fuel ch q clone (link sp)
    else ret i.
Proof. done. Qed.

Section run.
Context {s σ rep} (Hinv : sam_inv s σ rep) (c : A).

Local Abbreviation n := (length (states σ)).
Local Abbreviation above k := (λ v, bool_decide (chain_above s σ rep k v)).

Lemma chain_same v v2 :
  v < n → v2 < n → rep v `suffix_of` s → rep v2 `suffix_of` s →
  length (rep v2) = length (rep v) → v2 = v.
Proof.
  intros Hv Hx Hvs Hxs Hlen. apply (inv_inj _ _ _ Hinv); [done..|].
  assert (rep v2 = rep v) as ->; [|apply endpos_eq_refl].
  apply suffix_length_eq; [|lia]. eapply suffix_of_shorter; [done..|lia].
Qed.

(** No state of the chain lies strictly between a state and its suffix
    link. *)
Lemma chain_gap v sv u v2 :
  0 < v → states σ !! v = Some sv → link sv = Z.of_nat u →
  rep v `suffix_of` s → v2 < n → rep v2 `suffix_of` s →
  length (rep u) < length (rep v2) → length (rep v) ≤ length (rep v2).
Proof.
  intros Hpos Hsv Hu Hvs Hx Hxs Hlt.
  destruct (inv_link _ _ _ Hinv _ _ Hpos Hsv) as (u' & Hu' & _ & _ & _ & Hcls).
  assert (u' = u) as -> by lia.
  destruct (decide (length (rep v) ≤ length (rep v2))) as [|Hn]; [done|].
  assert (v2 = v) as ->; [|lia].
  apply (inv_inj _ _ _ Hinv); [done|by eapply lookup_lt_Some|].
  apply Hcls; [|done]. eapply suffix_of_shorter; [done..|lia].
Qed.

Lemma chain_link_suffix v sv u :
  0 < v → states σ !! v = Some sv → link sv = Z.of_nat u →
  rep v `suffix_of` s →
  u < n ∧ rep u `suffix_of` s ∧ length (rep u) < length (rep v).
Proof.
  intros Hpos Hsv Hu Hvs.
  destruct (inv_link _ _ _ Hinv _ _ Hpos Hsv)
    as (u' & Hu' & Hlt & Hsuf & Hlen & _).
  assert (u' = u) as -> by lia. split_and!; [done| |done]. by etrans.
Qed.

(** The first loop, started at a state [v] of the chain when the states
    above [v] have been visited: it stops at [-1] with the whole chain
    visited, or at the first state [p] with a transition on [c]. *)
Lemma extend_walk_spec tgt tail lst fuel : ∀ v,
  v < n → rep v `suffix_of` s →
  (∀ u su, chain_above s σ rep (S (length (rep v))) u →
     states σ !! u = Some su → next su !! c = None) →
  length (rep v) + 2 ≤ fuel →
  ∃ pf k,
    extend_walk fuel c tgt (Z.of_nat v)
      {| states := upd_next (above (S (length (rep v)))) c tgt (states σ) ++ tail;
         last := lst |}
    = Ok (pf, {| states := upd_next (above k) c tgt (states σ) ++ tail;
                 last := lst |}) ∧
    (∀ u su, chain_above s σ rep k u →
       states σ !! u = Some su → next su !! c = None) ∧
    ((pf = (-1)%Z ∧ k = 0) ∨
     ∃ p sp q, pf = Z.of_nat p ∧ states σ !! p = Some sp ∧
       rep p `suffix_of` s ∧ k = S (length (rep p)) ∧ next sp !! c = Some q).
Proof.
  induction fuel as [|fuel IH]; intros v Hv Hvs Habove Hfuel; [lia|].
  destruct (lookup_lt_is_Some_2 _ _ Hv) as [sv Hsv].
  rewrite extend_walk_S, decide_False by lia.
  assert (∀ k, length (rep v) < k →
    (upd_next (above k) c tgt (states σ) ++ tail) !! v = Some sv) as Hlook.
  { intros k Hk. rewrite lookup_app_l by by rewrite upd_next_length.
    rewrite upd_next_lookup, Hsv. simpl.
    rewrite bool_decide_eq_false_2; [done|]. intros (_ & _ & ?). lia. }
  rewrite (bind_ok _ _ _ _ _ (get_state_ok {| states := _; last := lst |}
                                _ _ (Hlook _ (Nat.lt_succ_diag_r _)))).
  destruct (next sv !! c) as [q|] eqn:Hq.
  { exists (Z.of_nat v), (S (length (rep v))). split; [done|].
    split; [done|]. right. by exists v, sv, q. }
  rewrite (bind_ok _ _ _ _ _ (modify_state_ok {| states := _; last := lst |}
                                _ _ _ (Hlook _ (Nat.lt_succ_diag_r _)))).
  cbn [states last].
  rewrite insert_app_l by (by rewrite upd_next_length).
  rewrite (upd_next_insert _ _ _ _ _ _ Hsv).
  assert (∀ u su, chain_above s σ rep (length (rep v)) u →
            states σ !! u = Some su → next su !! c = None) as Habove'.
  { intros u su (Hu & Hus & Hle) Hsu.
    destruct (decide (length (rep u) = length (rep v))) as [Heq|Hne].
    - assert (u = v) as -> by by apply chain_same. congruence.
    - eapply Habove; [|done]. split_and!; [done..|lia]. }
  assert (upd_next (λ u, if decide (u = v) then true
                         else above (S (length (rep v))) u) c tgt (states σ)
          = upd_next (above (length (rep v))) c tgt (states σ)) as ->.
  { apply upd_next_ext. intros u Hu. destruct (decide (u = v)) as [->|Hne].
    - symmetry. apply bool_decide_eq_true_2. by split_and!.
    - apply bool_decide_ext. split.
      + intros (? & ? & ?). split_and!; [done..|lia].
      + intros (? & ? & ?). split_and!; [done..|].
        destruct (decide (length (rep u) = length (rep v))); [|lia].
        destruct Hne. by apply chain_same. }
  assert ((upd_next (above (length (rep v))) c tgt (states σ) ++ tail) !! v
          = Some (set_next (<[c := tgt]> (next sv)) sv)) as Hlook'.
  { rewrite lookup_app_l by by rewrite upd_next_length.
    rewrite upd_next_lookup, Hsv. simpl.
    rewrite bool_decide_eq_true_2; [done|]. by split_and!. }
  rewrite (bind_ok _ _ _ _ _ (get_state_ok {| states := _; last := lst |}
                                _ _ Hlook')).
  cbn [link set_next].
  destruct (decide (v = 0)) as [->|Hpos].
  - rewrite (inv_link0 _ _ _ Hinv _ Hsv).
    destruct fuel as [|fuel]; [lia|]. rewrite extend_walk_S, decide_True by done.
    rewrite (inv_init _ _ _ Hinv) in *. simpl in *.
    exists (-1)%Z, 0. split; [done|]. split; [done|]. by left.
  - destruct (inv_link _ _ _ Hinv v sv) as (u & Hu & _); [lia|done|].
    destruct (chain_link_suffix v sv u) as (Hult & Hus & Hulen); [lia|done..|].
    rewrite Hu.
    assert (upd_next (above (length (rep v))) c tgt (states σ)
            = upd_next (above (S (length (rep u)))) c tgt (states σ)) as ->.
    { apply upd_next_ext. intros v2 Hx. apply bool_decide_ext. split.
      - intros (? & ? & ?). split_and!; [done..|lia].
      - intros (? & ? & ?). split_and!; [done..|].
        eapply (chain_gap v sv u v2); [lia|done..|lia]. }
    apply IH; [done..| |lia].
    intros v2 sv2 (Hx & Hxs & Hle) Hsx. eapply Habove'; [|done].
    split_and!; [done..|]. eapply (chain_gap v sv u v2); [lia|done..].
Qed.

(** The states of the chain between two lengths. *)
Definition chain_segment (s : list A) (σ : SuffixAutomaton A)
    (rep : nat → list A) (lo hi v : nat) : Prop :=
  v < length (states σ) ∧ rep v `suffix_of` s ∧
  lo ≤ length (rep v) ∧ length (rep v) ≤ hi.

Global Instance chain_segment_dec s' σ' rep' lo hi v :
  Decision (chain_segment s' σ' rep' lo hi v).
Proof. unfold chain_segment. apply _. Defined.

Local Abbreviation segment lo hi :=
  (λ v, bool_decide (chain_segment s σ rep lo hi v)).

(** The second loop, started at a state [v] of the chain below [hi] when the
    states between [v] and [hi] have been visited: it stops at [-1], or at the
    first state whose transition on [c] does not go to [q].  [base] is the
    list of states the loop starts from; it has the old states of the chain
    up to [hi] as they were. *)
Lemma extend_redirect_spec q tgt base hi tail lst fuel : ∀ v,
  length base = n →
  (∀ u su, chain_segment s σ rep 0 hi u →
     states σ !! u = Some su → base !! u = Some su) →
  v < n → rep v `suffix_of` s → length (rep v) ≤ hi →
  (∀ u su, chain_segment s σ rep (S (length (rep v))) hi u →
     states σ !! u = Some su → next su !! c = Some q) →
  length (rep v) + 2 ≤ fuel →
  ∃ pf k,
    extend_redirect fuel c q tgt (Z.of_nat v)
      {| states := upd_next (segment (S (length (rep v))) hi) c tgt base ++ tail;
         last := lst |}
    = Ok (pf, {| states := upd_next (segment k hi) c tgt base ++ tail;
                 last := lst |}) ∧
    (∀ u su, chain_segment s σ rep k hi u →
       states σ !! u = Some su → next su !! c = Some q) ∧
    ((pf = (-1)%Z ∧ k = 0) ∨
     ∃ p sp, pf = Z.of_nat p ∧ states σ !! p = Some sp ∧
       rep p `suffix_of` s ∧ k = S (length (rep p)) ∧
       length (rep p) ≤ hi ∧ next sp !! c ≠ Some q).
Proof.
  induction fuel as [|fuel IH];
    intros v Hbase Hsame Hv Hvs Hvhi Hseg Hfuel; [lia|].
  destruct (lookup_lt_is_Some_2 _ _ Hv) as [sv Hsv].
  rewrite extend_redirect_S, decide_False by lia.
  assert (base !! v = Some sv) as Hbv.
  { apply Hsame; [|done]. split_and!; [done..|lia|done]. }
  assert (∀ k, length (rep v) < k →
    (upd_next (segment k hi) c tgt base ++ tail) !! v = Some sv) as Hlook.
  { intros k Hk. rewrite lookup_app_l by (rewrite upd_next_length; lia).
    rewrite upd_next_lookup, Hbv. simpl.
    rewrite bool_decide_eq_false_2; [done|]. intros (_ & _ & ? & _). lia. }
  rewrite (bind_ok _ _ _ _ _ (get_state_ok {| states := _; last := lst |}
                                _ _ (Hlook _ (Nat.lt_succ_diag_r _)))).
  destruct (decide (next sv !! c = Some q)) as [Hq|Hq]; last first.
  { exists (Z.of_nat v), (S (length (rep v))). split; [done|].
    split; [done|]. right. by exists v, sv. }
  rewrite (bind_ok _ _ _ _ _ (modify_state_ok {| states := _; last := lst |}
                                _ _ _ (Hlook _ (Nat.lt_succ_diag_r _)))).
  cbn [states last].
  rewrite insert_app_l by (rewrite upd_next_length; lia).
  rewrite (upd_next_insert _ _ _ _ _ _ Hbv).
  assert (∀ u su, chain_segment s σ rep (length (rep v)) hi u →
            states σ !! u = Some su → next su !! c = Some q) as Hseg'.
  { intros u su (Hu & Hus & Hle & Hhi) Hsu.
    destruct (decide (length (rep u) = length (rep v))) as [Heq|Hne].
    - assert (u = v) as -> by by apply chain_same. congruence.
    - eapply Hseg; [|done]. split_and!; [done..|lia|done]. }
  assert (upd_next (λ u, if decide (u = v) then true
                         else segment (S (length (rep v))) hi u) c tgt base
          = upd_next (segment (length (rep v)) hi) c tgt base) as ->.
  { apply upd_next_ext. intros u Hu. destruct (decide (u = v)) as [->|Hne].
    - symmetry. apply bool_decide_eq_true_2. by split_and!.
    - apply bool_decide_ext. split.
      + intros (? & ? & ? & ?). split_and!; [done..|lia|done].
      + intros (? & ? & ? & ?). split_and!; [done..| |done].
        destruct (decide (length (rep u) = length (rep v))); [|lia].
        destruct Hne. by apply chain_same. }
  assert ((upd_next (segment (length (rep v)) hi) c tgt base ++ tail) !! v
          = Some (set_next (<[c := tgt]> (next sv)) sv)) as Hlook'.
  { rewrite lookup_app_l by (rewrite upd_next_length; lia).
    rewrite upd_next_lookup, Hbv. simpl.
    rewrite bool_decide_eq_true_2; [done|]. by split_and!. }
  rewrite (bind_ok _ _ _ _ _ (get_state_ok {| states := _; last := lst |}
                                _ _ Hlook')).
  cbn [link set_next].
  destruct (decide (v = 0)) as [->|Hpos].
  - rewrite (inv_link0 _ _ _ Hinv _ Hsv).
    destruct fuel as [|fuel]; [lia|].
    rewrite extend_redirect_S, decide_True by done.
    rewrite (inv_init _ _ _ Hinv) in *. simpl in *.
    exists (-1)%Z, 0. split; [done|]. split; [done|]. by left.
  - destruct (inv_link _ _ _ Hinv v sv) as (u & Hu & _); [lia|done|].
    destruct (chain_link_suffix v sv u) as (Hult & Hus & Hulen); [lia|done..|].
    rewrite Hu.
    assert (upd_next (segment (length (rep v)) hi) c tgt base
            = upd_next (segment (S (length (rep u))) hi) c tgt base) as ->.
    { apply upd_next_ext. intros v2 Hv2. apply bool_decide_ext. split.
      - intros (? & ? & ? & ?). split_and!; [done..|lia|done].
      - intros (? & ? & ? & ?). split_and!; [done..| |done].
        eapply (chain_gap v sv u v2); [lia|done..|lia]. }
    apply IH; [done..|lia| |lia].
    intros v2 sv2 (Hv2 & Hv2s & Hle & Hhi) Hsv2. eapply Hseg'; [|done].
    split_and!; [done..| |done]. eapply (chain_gap v sv u v2); [lia|done..].
Qed.

End run.

(** ** Which branch [extend] takes *)

(** The state at which the first loop of [extend] stops, read off the
    automaton before the call: from [p], follow the suffix links up to the
    first state that has a transition on [ch]; the sentinel [-1] when the
    chain has none.  The loop itself writes a transition on [ch] into every
    state it passes; this function only reads. *)
Fixpoint first_with (st : list (State A)) (fuel : nat) (ch : A) (p : Z) : Z :=
  match fuel with
  | 0 => p
  | S fuel =>
      match lookup_state st p with
      | Some sp =>
          match next sp !! ch with
          | Some _ => p
          | None => first_with st fuel ch (link sp)
          end
      | None => p
      end
  end.

(** The split case of [extend ch], on the automaton before the call: the
    first loop stops at a state [p] and not at the sentinel
    ([if p == -1] fails), and the target [q] of the transition of [p] on [ch]
    has a [len] other than [len p + 1]
    ([if self.states[p].len + 1 == self.states[q].len] fails). *)
Definition splits (ch : A) (σ : SuffixAutomaton A) : bool :=
  let p := first_with (states σ) (S (length (states σ))) ch
             (Z.of_nat (last σ)) in
  match lookup_state (states σ) p with
  | Some sp =>
      match next sp !! ch with
      | Some q =>
          match states σ !! q with
          | Some sq => bool_decide (len sp + 1 ≠ len sq)
          | None => false
          end
      | None => false
      end
  | None => false
  end.

Lemma first_with_neg st fuel (ch : A) : first_with st fuel ch (-1) = (-1)%Z.
Proof. by destruct fuel. Qed.

Section split.
Context {s σ rep} (Hinv : sam_inv s σ rep) (c : A).

(** No state of the chain has a transition on [c]: the search ends at the
    sentinel. *)
Lemma first_with_none fuel : ∀ v,
  (∀ u su, chain_above s σ rep 0 u →
     states σ !! u = Some su → next su !! c = None) →
  v < length (states σ) → rep v `suffix_of` s →
  length (rep v) + 2 ≤ fuel →
  first_with (states σ) fuel c (Z.of_nat v) = (-1)%Z.
Proof.
  induction fuel as [|fuel IH]; intros v Hnone Hv Hvs Hfuel; [lia|].
  destruct (lookup_lt_is_Some_2 _ _ Hv) as [sv Hsv].
  cbn [first_with]. rewrite lookup_state_nat, Hsv.
  rewrite (Hnone v sv); [|split_and!; [done..|lia]|done].
  destruct (decide (v = 0)) as [->|Hpos].
  - rewrite (inv_link0 _ _ _ Hinv _ Hsv). apply first_with_neg.
  - destruct (inv_link _ _ _ Hinv v sv) as (u & Hu & _); [lia|done|].
    destruct (chain_link_suffix Hinv v sv u) as (Hult & Hus & Hulen);
      [lia|done..|].
    rewrite Hu. apply IH; [done..|lia].
Qed.

(** [p] is the longest state of the chain with a transition on [c]: the
    search, started at or above [p], ends at [p]. *)
Lemma first_with_some p sp q fuel : ∀ v,
  states σ !! p = Some sp → rep p `suffix_of` s → next sp !! c = Some q →
  (∀ u su, chain_above s σ rep (S (length (rep p))) u →
     states σ !! u = Some su → next su !! c = None) →
  v < length (states σ) → rep v `suffix_of` s →
  length (rep p) ≤ length (rep v) → length (rep v) + 2 ≤ fuel →
  first_with (states σ) fuel c (Z.of_nat v) = Z.of_nat p.
Proof.
  induction fuel as [|fuel IH];
    intros v Hsp Hps Hq Hnone Hv Hvs Hle Hfuel; [lia|].
  pose proof (lookup_lt_Some _ _ _ Hsp) as Hp.
  destruct (lookup_lt_is_Some_2 _ _ Hv) as [sv Hsv].
  cbn [first_with]. rewrite lookup_state_nat, Hsv.
  destruct (decide (length (rep v) = length (rep p))) as [Heq|Hne].
  { assert (v = p) as -> by by apply (chain_same Hinv).
    simplify_eq. by rewrite Hq. }
  rewrite (Hnone v sv); [|split_and!; [done..|lia]|done].
  assert (0 < v) as Hpos.
  { destruct (decide (v = 0)) as [->|]; [|lia].
    rewrite (inv_init _ _ _ Hinv) in Hle, Hne. simpl in *. lia. }
  destruct (inv_link _ _ _ Hinv v sv) as (u & Hu & _); [done..|].
  destruct (chain_link_suffix Hinv v sv u) as (Hult & Hus & Hulen); [done..|].
  rewrite Hu. apply IH; [done..| |lia].
  destruct (decide (length (rep p) ≤ length (rep u))) as [|Hlt]; [done|].
  pose proof (chain_gap Hinv v sv u p Hpos Hsv Hu Hvs Hp Hps). lia.
Qed.

Lemma splits_none :
  (∀ u su, chain_above s σ rep 0 u →
     states σ !! u = Some su → next su !! c = None) →
  splits c σ = false.
Proof.
  intros Hnone. unfold splits.
  rewrite first_with_none; [done..|apply (inv_last_lt _ _ _ Hinv)| |].
  - by rewrite (inv_last _ _ _ Hinv).
  - rewrite (inv_last _ _ _ Hinv). pose proof (inv_count _ _ _ Hinv). lia.
Qed.

Lemma splits_some p sp q sq :
  states σ !! p = Some sp → rep p `suffix_of` s → next sp !! c = Some q →
  (∀ u su, chain_above s σ rep (S (length (rep p))) u →
     states σ !! u = Some su → next su !! c = None) →
  states σ !! q = Some sq →
  splits c σ = bool_decide (len sp + 1 ≠ len sq).
Proof.
  intros Hsp Hps Hq Hnone Hsq. unfold splits.
  rewrite (first_with_some p sp q); [|done..|apply (inv_last_lt _ _ _ Hinv)| | |].
  - by rewrite lookup_state_nat, Hsp, Hq, Hsq.
  - by rewrite (inv_last _ _ _ Hinv).
  - rewrite (inv_last _ _ _ Hinv).
    apply (inv_rep_length Hinv). by eapply lookup_lt_Some.
  - rewrite (inv_last _ _ _ Hinv). pose proof (inv_count _ _ _ Hinv). lia.
Qed.

End split.

(** ** [extend] keeps the invariant *)

Section extend_inv.
Context {s σ rep} (Hinv : sam_inv s σ rep) (c : A).

Local Abbreviation n := (length (states σ)).
Local Abbreviation above k := (λ v, bool_decide (chain_above s σ rep k v)).
Local Abbreviation segment lo hi :=
  (λ v, bool_decide (chain_segment s σ rep lo hi v)).

(** When no state of the chain at or above length [k] has a transition on
    [c], no suffix of [s] of length at least [k] can be followed by [c]
    inside [s]. *)
Lemma walk_bound k y :
  (∀ u su, chain_above s σ rep k u →
     states σ !! u = Some su → next su !! c = None) →
  y `suffix_of` s → substring (y ++ [c]) s → length y < k.
Proof.
  intros Hnone Hy Hsub.
  destruct (inv_cover_suffix Hinv y Hy) as (v & Hv & Heq & Hvs & Hyv).
  destruct (decide (length y < k)) as [|Hge]; [done|]. exfalso.
  destruct (lookup_lt_is_Some_2 _ _ Hv) as [sv Hsv].
  eapply (inv_next_none _ _ _ Hinv); [done| |].
  - eapply Hnone; [|done]. split_and!; [done..|].
    apply suffix_length in Hyv. lia.
  - eapply endpos_eq_substring; [|done]. by apply endpos_eq_snoc.
Qed.

Lemma walk_bound_max k z y :
  (∀ u su, chain_above s σ rep k u →
     states σ !! u = Some su → next su !! c = None) →
  length z = k →
  y `suffix_of` s ++ [c] → substring y s → length y ≤ length z.
Proof.
  intros Hnone Hz [->|(y' & -> & Hy')]%suffix_snoc_cases Hsub; [simpl; lia|].
  pose proof (walk_bound k y' Hnone Hy' Hsub). rewrite length_app. simpl. lia.
Qed.

Lemma upd_above_lookup k z tail v sv :
  length z = k → states σ !! v = Some sv →
  (upd_next (above k) c n (states σ) ++ tail) !! v
  = Some (if decide (chain_above s σ rep (length z) v)
          then set_next (<[c := n]> (next sv)) sv else sv).
Proof.
  intros <- Hsv. rewrite lookup_app_l
    by (rewrite upd_next_length; by eapply lookup_lt_Some).
  rewrite upd_next_lookup, Hsv. simpl.
  case_bool_decide; [by rewrite decide_True|by rewrite decide_False].
Qed.

Lemma upd_above_empty k :
  length s < k → upd_next (above k) c n (states σ) = states σ.
Proof.
  intros Hk. etrans; [|apply (upd_next_none c n)].
  apply upd_next_ext. intros v Hv. apply bool_decide_eq_false_2.
  intros (_ & _ & Hle). pose proof (inv_rep_length Hinv v Hv). lia.
Qed.

Lemma upd_segment_empty lo hi tgt base :
  hi < lo → upd_next (segment lo hi) c tgt base = base.
Proof.
  intros Hlt. etrans; [|apply (upd_next_none c tgt)].
  apply upd_next_ext. intros v Hv. apply bool_decide_eq_false_2.
  intros (_ & _ & ? & ?). lia.
Qed.

Lemma lookup_snd_tail {X} (l : list X) a b m :
  length l = m → (l ++ [a; b]) !! S m = Some b.
Proof.
  intros <-. rewrite lookup_app_r by lia.
  by replace (S (length l) - length l) with 1 by lia.
Qed.

Lemma insert_snd_tail {X} (l : list X) a b e m :
  length l = m → <[S m := e]> (l ++ [a; b]) = l ++ [a; e].
Proof.
  intros <-. rewrite insert_app_r_alt by lia.
  by replace (S (length l) - length l) with 1 by lia.
Qed.

Lemma insert_fst_tail {X} (l : list X) a t e m :
  length l = m → <[m := e]> (l ++ a :: t) = l ++ e :: t.
Proof. intros <-. by rewrite insert_app_r_alt, Nat.sub_diag by lia. Qed.

(** The states the second loop has visited are the states of the chain
    whose transition on [c] went to [q]. *)
Lemma segment_redirected p sp q j (pf : Z) :
  states σ !! p = Some sp → rep p `suffix_of` s → next sp !! c = Some q →
  (∀ u su, chain_above s σ rep (S (length (rep p))) u →
     states σ !! u = Some su → next su !! c = None) →
  (∀ u su, chain_segment s σ rep j (length (rep p)) u →
     states σ !! u = Some su → next su !! c = Some q) →
  ((pf = (-1)%Z ∧ j = 0) ∨
   ∃ p' sp', pf = Z.of_nat p' ∧ states σ !! p' = Some sp' ∧
     rep p' `suffix_of` s ∧ j = S (length (rep p')) ∧
     length (rep p') ≤ length (rep p) ∧ next sp' !! c ≠ Some q) →
  ∀ v, chain_segment s σ rep j (length (rep p)) v ↔
       redirected (s:=s) (σ:=σ) (rep:=rep) c q v.
Proof.
  intros Hsp Hps Hq Hnone Hseg Hstop v. split.
  - intros Hv. pose proof Hv as (Hvlt & Hvs & _).
    destruct (lookup_lt_is_Some_2 _ _ Hvlt) as [sv Hsv].
    split_and!; [done..|]. rewrite Hsv. simpl. by eapply Hseg.
  - intros (Hvlt & Hvs & Hvq).
    destruct (states σ !! v) as [sv|] eqn:Hsv; [|done]. simpl in Hvq.
    assert (length (rep v) ≤ length (rep p)) as Hhi.
    { destruct (decide (length (rep v) ≤ length (rep p))) as [|Hn]; [done|].
      assert (next sv !! c = None); [|congruence].
      eapply Hnone; [|done]. split_and!; [done..|lia]. }
    split_and!; [done..| |done].
    destruct Hstop as [[_ ->] | (p' & sp' & _ & Hsp' & Hp's & -> & Hp'hi & Hp'q)];
      [lia|].
    destruct (decide (S (length (rep p')) ≤ length (rep v))) as [|Hn]; [done|].
    exfalso.
    destruct (decide (length (rep v) = length (rep p'))) as [Heq|Hne].
    { assert (v = p') as ->; [|congruence].
      apply (chain_same Hinv); [by eapply lookup_lt_Some|done..]. }
    destruct (inv_next_some _ _ _ Hinv _ _ _ _ Hsp Hq) as [Hqlt Hpq].
    destruct (inv_next_some _ _ _ Hinv _ _ _ _ Hsv Hvq) as [_ Hvq'].
    assert (rep p' ++ [c] `suffix_of` rep q) as Hp'q'.
    { etrans; [|exact (inv_max _ _ _ Hinv _ _ Hqlt Hpq)].
      apply suffix_app. by apply (suffix_of_shorter _ _ s). }
    assert (endpos_eq s (rep p' ++ [c]) (rep q)) as Heq.
    { apply (endpos_eq_between s (rep v ++ [c])); [|done..].
      apply suffix_app. apply (suffix_of_shorter _ _ s); [done..|lia]. }
    destruct (next sp' !! c) as [q'|] eqn:Hq'.
    + destruct (inv_next_some _ _ _ Hinv _ _ _ _ Hsp' Hq') as [Hq'lt Heq'].
      assert (q' = q) as ->; [|done].
      apply (inv_inj _ _ _ Hinv); [done..|].
      exact (endpos_eq_trans _ _ _ _ (endpos_eq_sym _ _ _ Heq') Heq).
    + apply (inv_next_none _ _ _ Hinv _ _ _ Hsp' Hq').
      eapply endpos_eq_substring; [exact (endpos_eq_sym _ _ _ Heq)|].
      by apply (inv_sub _ _ _ Hinv).
Qed.

(** [extend] returns, keeps the invariant, and appends a second state in
    the split case and only then. *)
Theorem extend_inv_splits :
  ∃ σ' rep', extend c σ = Ok (tt, σ') ∧ sam_inv (s ++ [c]) σ' rep' ∧
    (length (states σ') = S n ∨
     (length (states σ') = S (S n) ∧ 2 ≤ length s ∧
      ∃ sl, states σ' !! last σ' = Some sl ∧ link sl = Z.of_nat (S n))) ∧
    length (states σ') = n + (if splits c σ then 2 else 1).
Proof.
  pose proof (inv_last_lt _ _ _ Hinv) as Hlast.
  pose proof (inv_count _ _ _ Hinv) as Hcount.
  destruct (lookup_lt_is_Some_2 _ _ Hlast) as [sl Hsl].
  assert (len sl = length s) as Hlensl.
  { by rewrite (inv_len _ _ _ Hinv _ _ Hsl), (inv_last _ _ _ Hinv). }
  set (cur0 := {| next := ∅; link := (-1)%Z; len := length s + 1 |} : State A).
  remember (extend c σ) as r eqn:Hext. unfold extend in Hext.
  rewrite bind_num_states, bind_append_state, bind_get_last in Hext.
  cbn [states last] in Hext.
  rewrite (bind_get_state _ _ _ sl) in Hext
    by (cbn [states]; by rewrite lookup_app_l).
  rewrite (bind_modify_state _ _ _ State_init) in Hext
    by (cbn [states]; by apply list_lookup_middle).
  cbn [states last] in Hext.
  rewrite insert_app_r_alt, Nat.sub_diag in Hext by done.
  change (<[0:=set_len (len sl + 1) State_init]> [State_init])
    with [set_len (len sl + 1) (State_init (A:=A))] in Hext.
  rewrite Hlensl in Hext.
  change (set_len (length s + 1) State_init) with cur0 in Hext.
  rewrite bind_num_states in Hext. cbn [states] in Hext.
  rewrite length_app in Hext. cbn [length] in Hext.
  destruct (extend_walk_spec Hinv c n [cur0] (last σ) (n + 1) (last σ))
    as (pf & k & Hwalk & Hnone & Hres); [done| | |  |].
  { rewrite (inv_last _ _ _ Hinv). done. }
  { intros u su (Hu & _ & Hle) _. rewrite (inv_last _ _ _ Hinv) in Hle.
    pose proof (inv_rep_length Hinv u Hu). lia. }
  { rewrite (inv_last _ _ _ Hinv). lia. }
  rewrite (inv_last _ _ _ Hinv), upd_above_empty in Hwalk by lia.
  rewrite (bind_ok _ _ _ _ _ Hwalk) in Hext. clear Hwalk.
  destruct Hres as [[-> ->] | (p & sp & q & -> & Hsp & Hps & -> & Hq)].
  - (* the chain has no transition on [c] *)
    rewrite decide_True in Hext by done.
    rewrite (bind_modify_state _ _ _ cur0) in Hext
      by (cbn [states]; apply list_lookup_middle; by rewrite upd_next_length).
    cbn [states last] in Hext.
    rewrite insert_app_r_alt, upd_next_length, Nat.sub_diag in Hext
      by (by rewrite upd_next_length).
    subst r. unfold set_last. cbn [states last].
    eexists _, (rep_step c []). split; [done|]. split.
    + apply (inv_step_noclone Hinv c [] (suffix_nil _) (substring_nil _))
        with (lk := 0).
      * intros y. by apply (walk_bound_max 0).
      * lia.
      * apply (inv_init _ _ _ Hinv).
      * rewrite length_app, upd_next_length. simpl. lia.
      * intros v sv Hsv. by apply upd_above_lookup.
      * apply list_lookup_middle. by rewrite upd_next_length.
    + rewrite (splits_none Hinv c Hnone). cbn [states].
      rewrite length_app, upd_next_length. simpl. split; [left|]; lia.
  - (* the walk stops at [p], which has a transition on [c] to [q] *)
    set (z := rep p ++ [c]).
    assert (length z = S (length (rep p))) as Hzlen.
    { unfold z. rewrite length_app. simpl. lia. }
    pose proof (lookup_lt_Some _ _ _ Hsp) as Hp.
    destruct (inv_next_some _ _ _ Hinv _ _ _ _ Hsp Hq) as [Hqlt Hzq].
    fold z in Hzq.
    destruct (lookup_lt_is_Some_2 _ _ Hqlt) as [sq Hsq].
    assert (z `suffix_of` s ++ [c]) as Hz_suf by by apply suffix_snoc_alt.
    assert (substring z s) as Hz_sub.
    { eapply endpos_eq_substring; [by apply endpos_eq_sym|].
      by apply (inv_sub _ _ _ Hinv). }
    assert (∀ y, y `suffix_of` s ++ [c] → substring y s →
                 length y ≤ length z) as Hz_max.
    { intros y. by apply (walk_bound_max (S (length (rep p)))). }
    assert (z `suffix_of` rep q) as Hzsuf by by apply (inv_max _ _ _ Hinv).
    assert (¬ chain_above s σ rep (length z) p) as Hpnw.
    { intros (_ & _ & ?). lia. }
    set (sq' := if decide (chain_above s σ rep (length z) q)
                then set_next (<[c := n]> (next sq)) sq else sq).
    assert (len sq' = len sq ∧ link sq' = link sq) as [Hlensq' Hlinksq'].
    { unfold sq'.
      destruct (decide (chain_above s σ rep (length z) q)); split; reflexivity. }
    assert (∀ tail, (upd_next (above (S (length (rep p)))) c n (states σ)
                     ++ tail) !! p = Some sp) as Hlookp.
    { intros tail. rewrite (upd_above_lookup _ z _ _ sp) by done.
      by rewrite decide_False. }
    assert (∀ tail, (upd_next (above (S (length (rep p)))) c n (states σ)
                     ++ tail) !! q = Some sq') as Hlookq.
    { intros tail. by rewrite (upd_above_lookup _ z _ _ sq). }
    rewrite decide_False in Hext by lia.
    rewrite bind_assoc, (bind_get_state _ _ _ sp) in Hext by apply Hlookp.
    rewrite bind_assoc, (bind_dict_get _ _ _ q) in Hext by done.
    rewrite bind_assoc, (bind_get_state _ _ _ sq') in Hext by apply Hlookq.
    pose proof (inv_len _ _ _ Hinv _ _ Hsp) as Hlensp.
    pose proof (inv_len _ _ _ Hinv _ _ Hsq) as Hlensq.
    destruct (decide (len sp + 1 = len sq')) as [Hlen|Hlen].
    + (* no clone *)
      rewrite (bind_modify_state _ _ _ cur0) in Hext
        by (cbn [states]; apply list_lookup_middle; by rewrite upd_next_length).
      cbn [states last] in Hext.
      rewrite (insert_fst_tail _ _ _ _ n) in Hext by by rewrite upd_next_length.
      subst r. unfold set_last. cbn [states last].
      eexists _, (rep_step c z). split; [done|]. split.
      * apply (inv_step_noclone Hinv c z Hz_suf Hz_sub Hz_max) with (lk := q).
        -- done.
        -- symmetry. apply suffix_length_eq; [done|lia].
        -- rewrite length_app, upd_next_length. simpl. lia.
        -- intros v sv Hsv. by apply upd_above_lookup.
        -- apply list_lookup_middle. by rewrite upd_next_length.
      * rewrite (splits_some Hinv c p sp q sq Hsp Hps Hq Hnone Hsq).
        rewrite bool_decide_eq_false_2 by lia. cbn [states].
        rewrite length_app, upd_next_length. simpl. split; [left|]; lia.
    + (* clone *)
      assert (length z < length (rep q)) as Hzq_len.
      { apply suffix_length in Hzsuf. lia. }
      set (U := upd_next (above (S (length (rep p)))) c n (states σ)) in *.
      assert (length U = n) as HUlen by apply upd_next_length.
      rewrite bind_assoc, bind_num_states in Hext. cbn [states] in Hext.
      replace (length (U ++ [cur0])) with (S n) in Hext
        by (rewrite length_app, HUlen; simpl; lia).
      rewrite bind_assoc, bind_append_state in Hext. cbn [states last] in Hext.
      rewrite <-(assoc_L (++)) in Hext. cbn [app] in Hext.
      rewrite bind_assoc, (bind_get_state _ _ _ sq') in Hext by apply Hlookq.
      rewrite bind_assoc, (bind_modify_state _ _ _ State_init) in Hext
        by (cbn [states]; by apply lookup_snd_tail).
      cbn [states last] in Hext.
      rewrite (insert_snd_tail _ _ _ _ n) in Hext by done.
      rewrite bind_assoc, (bind_get_state _ _ _ sp) in Hext by apply Hlookp.
      rewrite bind_assoc, (bind_modify_state _ _ _
                             (set_next (next sq') State_init)) in Hext
        by (cbn [states]; by apply lookup_snd_tail).
      cbn [states last] in Hext.
      rewrite (insert_snd_tail _ _ _ _ n) in Hext by done.
      rewrite bind_assoc, (bind_get_state _ _ _ sq') in Hext by apply Hlookq.
      rewrite bind_assoc, (bind_modify_state _ _ _
          (set_len (len sp + 1) (set_next (next sq') State_init))) in Hext
        by (cbn [states]; by apply lookup_snd_tail).
      cbn [states last] in Hext.
      rewrite (insert_snd_tail _ _ _ _ n) in Hext by done.
      set (clone0 := set_link (link sq') (set_len (len sp + 1)
                       (set_next (next sq') State_init))) in Hext.
      rewrite bind_assoc, bind_num_states in Hext. cbn [states] in Hext.
      replace (length (U ++ [cur0; clone0])) with (S (S n)) in Hext
        by (rewrite length_app, HUlen; simpl; lia).
      pose proof (inv_rep_length Hinv p Hp) as Hplen.
      destruct (extend_redirect_spec Hinv c q (S n) U (length (rep p))
                  [cur0; clone0] (last σ) (S (S n)) p)
        as (pf & j & Hred & Hseg & Hstop); [done| |done|done|lia| |lia|].
      { intros u su (Hu & Hus & _ & Hhi) Hsu. unfold U.
        rewrite upd_next_lookup, Hsu. simpl.
        rewrite bool_decide_eq_false_2; [done|]. intros (_ & _ & ?). lia. }
      { intros u su (_ & _ & ? & ?). lia. }
      rewrite upd_segment_empty in Hred by lia.
      rewrite bind_assoc, (bind_ok _ _ _ _ _ Hred) in Hext. clear Hred.
      set (R := upd_next (segment j (length (rep p))) c (S n) U) in *.
      assert (length R = n) as HRlen by (unfold R; by rewrite upd_next_length).
      pose proof (segment_redirected p sp q j pf Hsp Hps Hq Hnone Hseg Hstop)
        as Hsegred.
      assert (∀ v sv, states σ !! v = Some sv →
        R !! v = Some
          {| next := if decide (chain_above s σ rep (length z) v)
                     then <[c := n]> (next sv)
                     else if decide (redirected (s:=s) (σ:=σ) (rep:=rep) c q v)
                          then <[c := S n]> (next sv) else next sv;
             link := link sv; len := len sv |}) as HR.
      { intros v sv Hsv. unfold R, U. rewrite !upd_next_lookup, Hsv. simpl.
        destruct (decide (chain_above s σ rep (length z) v)) as [Hw|Hnw].
        - rewrite (bool_decide_eq_true_2 (chain_above s σ rep _ v))
            by by rewrite <-Hzlen.
          rewrite bool_decide_eq_false_2; [done|].
          destruct Hw as (_ & _ & ?). intros (_ & _ & _ & ?). lia.
        - rewrite (bool_decide_eq_false_2 (chain_above s σ rep _ v))
            by by rewrite <-Hzlen.
          destruct (decide (redirected c q v)) as [Hr|Hnr].
          + rewrite bool_decide_eq_true_2 by by apply Hsegred. by destruct sv.
          + rewrite bool_decide_eq_false_2 by by rewrite Hsegred.
            by destruct sv. }
      pose proof (HR q sq Hsq) as HRq.
      rewrite <-(lookup_app_l R [cur0; clone0]) in HRq by lia.
      rewrite bind_assoc,
        (bind_modify_state _ {| states := _; last := last σ |} _ _ _ HRq)
        in Hext.
      cbn [states last] in Hext.
      rewrite insert_app_l in Hext by lia.
      rewrite (bind_modify_state _ _ _ cur0) in Hext
        by (cbn [states]; apply list_lookup_middle; by rewrite length_insert).
      cbn [states last] in Hext.
      rewrite (insert_fst_tail _ _ _ _ n) in Hext by by rewrite length_insert.
      subst r. unfold set_last. cbn [states last].
      eexists _, (rep_step c z). split; [done|]. split.
      * apply (inv_step_clone Hinv c z Hz_suf Hz_sub Hz_max q sq); [done..| | | |].
        -- rewrite length_app, length_insert, HRlen. simpl. lia.
        -- intros v sv Hsv. pose proof (lookup_lt_Some _ _ _ Hsv).
           rewrite lookup_app_l by (rewrite length_insert; lia).
           unfold step_state. destruct (decide (v = q)) as [->|Hne].
           ++ rewrite list_lookup_insert_eq by lia. by simplify_eq.
           ++ rewrite list_lookup_insert_ne by done. by apply HR.
        -- apply list_lookup_middle. by rewrite length_insert.
        -- rewrite lookup_snd_tail by by rewrite length_insert.
           unfold clone0, set_link, set_len, set_next. simpl.
           rewrite Hlinksq'. replace (len sp + 1) with (length z) by lia.
           do 2 f_equal. unfold sq'.
           by destruct (decide (chain_above s σ rep (length z) q)).
      * rewrite (splits_some Hinv c p sp q sq Hsp Hps Hq Hnone Hsq).
        rewrite bool_decide_eq_true_2 by lia. cbn [states last].
        split; [right|rewrite length_app, length_insert, HRlen; simpl; lia].
        split_and!.
        -- rewrite length_app, length_insert, HRlen. simpl. lia.
        -- pose proof (inv_rep_length Hinv q Hqlt). lia.
        -- eexists. split; [apply list_lookup_middle; by rewrite length_insert|].
           done.
Qed.

Theorem extend_inv :
  ∃ σ' rep', extend c σ = Ok (tt, σ') ∧ sam_inv (s ++ [c]) σ' rep' ∧
    (length (states σ') = S n ∨
     (length (states σ') = S (S n) ∧ 2 ≤ length s ∧
      ∃ sl, states σ' !! last σ' = Some sl ∧ link sl = Z.of_nat (S n))).
Proof.
  destruct extend_inv_splits as (σ' & rep' & Hext & Hinv' & Hstep & _).
  by exists σ', rep'.
Qed.

End extend_inv.

(** ** Every automaton the constructor returns *)

Lemma empty_inv : sam_inv [] empty_automaton (λ _, []).
Proof.
  split; simpl; try done.
  - lia.
  - lia.
  - intros [|v] sv; [by intros [= <-]|done].
  - intros v _. apply substring_nil.
  - intros v w _ Heq. by apply Heq.
  - intros v v' Hv Hv' _. lia.
  - intros [|v] sv c q; [by intros [= <-]|done].
  - intros [|v] sv c; [|done]. intros _ _ Hsub%substring_length.
    simpl in Hsub. lia.
  - by intros sv [= <-].
  - intros [|v] sv; [lia|done].
Qed.

(** The number of states: [|s| + 1] up to length one, at most [2|s| - 1]
    from length two on; from length three on the bound is missed by one
    unless the last [extend] made a clone, in which case the suffix link of
    [last] does not go to the initial state. *)
Definition count_inv (s : list A) (σ : SuffixAutomaton A) : Prop :=
  (length s ≤ 1 → length (states σ) = length s + 1) ∧
  (2 ≤ length s → length (states σ) ≤ 2 * length s - 1) ∧
  (3 ≤ length s → length (states σ) ≤ 2 * length s - 2 ∨
     ∃ sl, states σ !! last σ = Some sl ∧ link sl ≠ 0%Z).

Lemma empty_count_inv : count_inv [] empty_automaton.
Proof. split_and!; simpl; intros; try done; lia. Qed.

Lemma extend_count_inv s σ c σ' :
  count_inv s σ →
  (length (states σ') = S (length (states σ)) ∨
   (length (states σ') = S (S (length (states σ))) ∧ 2 ≤ length s ∧
    ∃ sl, states σ' !! last σ' = Some sl ∧
          link sl = Z.of_nat (S (length (states σ))))) →
  count_inv (s ++ [c]) σ'.
Proof.
  intros (H1 & H2 & H3) Hstep. unfold count_inv. rewrite length_app. simpl.
  split_and!.
  - intros Hle. destruct Hstep as [->| (_ & ? & _)]; [|lia]. rewrite H1; lia.
  - intros Hle. destruct (decide (length s ≤ 1)) as [Hs|Hs].
    + destruct Hstep as [->| (_ & ? & _)]; [|lia]. rewrite H1; lia.
    + assert (2 ≤ length s) as Hs2 by lia. specialize (H2 Hs2).
      destruct Hstep as [->| (-> & _)]; lia.
  - intros Hle. destruct Hstep as [->| (-> & _ & sl & Hsl & Hlink)].
    + left. assert (2 ≤ length s) as Hs2 by lia. specialize (H2 Hs2). lia.
    + right. exists sl. split; [done|]. lia.
Qed.

Lemma extend_all_inv t : ∀ s σ rep,
  sam_inv s σ rep → count_inv s σ →
  ∃ σ' rep', extend_all t σ = Ok (tt, σ') ∧
             sam_inv (s ++ t) σ' rep' ∧ count_inv (s ++ t) σ'.
Proof.
  induction t as [|c t IH]; intros s σ rep Hinv Hcount.
  - exists σ, rep. by rewrite app_nil_r.
  - destruct (extend_inv Hinv c) as (σ1 & rep1 & Hext & Hinv1 & Hstep).
    destruct (IH (s ++ [c]) σ1 rep1 Hinv1) as (σ' & rep' & Hall & Hinv' & Hcount').
    { by eapply extend_count_inv. }
    exists σ', rep'. rewrite <-(assoc_L (++)) in Hinv', Hcount'.
    split; [|done]. cbn [extend_all]. by rewrite (bind_ok _ _ _ _ _ Hext).
Qed.

(** The constructor returns for every string, and what it returns satisfies
    the invariant for that string. *)
Theorem init_inv s :
  ∃ σ rep, SuffixAutomaton_init s = Ok (tt, σ) ∧ sam_inv s σ rep ∧ count_inv s σ.
Proof. apply (extend_all_inv s [] _ _ empty_inv empty_count_inv). Qed.

(** ** The query [longest_common_substring] *)

Section lcs.
Context {s σ rep} (Hinv : sam_inv s σ rep).

(** Between two symbols of the text, after its prefix [x]: the [l] last
    symbols of [x] are the longest suffix of [x] that occurs in [s], and they
    lead to state [v]. *)
Definition lcs_pos x v (l : nat) : Prop :=
  v < length (states σ) ∧
  ∃ w, longest_suffix_in s x w ∧ length w = l ∧ endpos_eq s w (rep v).

(** Inside the [while] loop on symbol [c]: the [l] last symbols of [x] lead
    to [v], and no longer suffix of [x] can be continued by [c]. *)
Definition lcs_at x c v (l : nat) : Prop :=
  v < length (states σ) ∧
  ∃ w, w `suffix_of` x ∧ length w = l ∧ endpos_eq s w (rep v) ∧
       ∀ y, y `suffix_of` x → l < length y → ¬ substring (y ++ [c]) s.

Lemma lcs_pos_at x c v l : lcs_pos x v l → lcs_at x c v l.
Proof.
  intros (Hv & w & (Hsuf & Hsub & Hmax) & Hlen & Heq).
  split; [done|]. exists w. split_and!; [done..|].
  intros y Hy Hlt Hyc%substring_snoc_l. specialize (Hmax y Hy Hyc). lia.
Qed.

Lemma lcs_pos_nil : lcs_pos [] 0 0.
Proof.
  split; [by apply (inv_pos Hinv)|]. exists []. split_and!; [|done|].
  - split_and!; [done|apply substring_nil|].
    by intros y ->%suffix_nil_inv.
  - rewrite (inv_init _ _ _ Hinv). apply endpos_eq_refl.
Qed.

(** The loop follows a suffix link. *)
Lemma lcs_at_link x c v l sv u :
  lcs_at x c v l → states σ !! v = Some sv → next sv !! c = None →
  0 < v → link sv = Z.of_nat u →
  ∃ su, states σ !! u = Some su ∧ lcs_at x c u (len su) ∧
        length (rep u) < length (rep v).
Proof.
  intros (Hv & w & Hwx & Hlen & Heq & Hlong) Hsv Hnone Hpos Hlink.
  destruct (inv_link _ _ _ Hinv _ _ Hpos Hsv)
    as (u' & Hlink' & Hu & Hsuf & Hlt & Hcls).
  assert (u' = u) as -> by lia.
  destruct (lookup_lt_is_Some_2 _ _ Hu) as [su Hsu].
  pose proof (inv_len _ _ _ Hinv _ _ Hsu) as Hlsu.
  pose proof (inv_max _ _ _ Hinv _ _ Hv Heq) as Hwv.
  assert (length (rep u) < length w) as Hshort.
  { destruct (decide (length (rep u) < length w)) as [|Hge]; [done|].
    assert (w `suffix_of` rep u) as Hwu.
    { apply (suffix_of_shorter _ _ (rep v)); [done..|lia]. }
    pose proof (endpos_eq_between s w (rep u) (rep v) Hwu Hsuf Heq) as Huv.
    pose proof (inv_inj _ _ _ Hinv _ _ Hu Hv Huv) as Heq'. subst u. lia. }
  assert (rep u `suffix_of` w) as Huw.
  { apply (suffix_of_shorter _ _ (rep v)); [done..|lia]. }
  exists su. split_and!; [done| |done].
  split; [done|]. exists (rep u). split_and!.
  - by etrans.
  - done.
  - apply endpos_eq_refl.
  - intros y Hy Hlty. rewrite Hlsu in Hlty.
    destruct (decide (l < length y)) as [Hl|Hl]; [by apply Hlong|].
    assert (y `suffix_of` w) as Hyw.
    { apply (suffix_of_shorter _ _ x); [done..|lia]. }
    assert (endpos_eq s y (rep v)) as Hyv.
    { apply Hcls; [by etrans|done]. }
    intros Hsub. apply (inv_next_none _ _ _ Hinv _ _ _ Hsv Hnone).
    eapply endpos_eq_substring; [|exact Hsub]. by apply endpos_eq_snoc.
Qed.

(** The loop falls off the initial state. *)
Lemma lcs_at_init x c l sv :
  lcs_at x c 0 l → states σ !! 0 = Some sv → next sv !! c = None →
  ∀ y, y `suffix_of` x → ¬ substring (y ++ [c]) s.
Proof.
  intros (Hv & w & Hwx & Hlen & Heq & Hlong) Hsv Hnone y Hy.
  pose proof (inv_max _ _ _ Hinv _ _ Hv Heq) as Hw0.
  rewrite (inv_init _ _ _ Hinv) in Hw0. apply suffix_nil_inv in Hw0.
  subst w. simpl in Hlen. subst l.
  destruct y as [|a y]; [|apply Hlong; [done|simpl; lia]].
  pose proof (inv_next_none _ _ _ Hinv _ _ _ Hsv Hnone) as Habs.
  by rewrite (inv_init _ _ _ Hinv) in Habs.
Qed.

Lemma lcs_walk_spec x c fuel : ∀ v l,
  lcs_at x c v l → length (rep v) + 2 ≤ fuel →
  ∃ vf lf, lcs_walk fuel c (Z.of_nat v) l σ = Ok ((vf, lf), σ) ∧
    ((vf = (-1)%Z ∧ ∀ y, y `suffix_of` x → ¬ substring (y ++ [c]) s) ∨
     (∃ v' sv q, vf = Z.of_nat v' ∧ states σ !! v' = Some sv ∧
                 next sv !! c = Some q ∧ lcs_at x c v' lf)).
Proof.
  induction fuel as [|fuel IH]; intros v l Hat Hfuel; [lia|].
  pose proof Hat as (Hv & _).
  destruct (lookup_lt_is_Some_2 _ _ Hv) as [sv Hsv].
  cbn [lcs_walk]. rewrite decide_False by lia.
  rewrite (bind_get_state _ _ _ _ Hsv).
  destruct (next sv !! c) as [q|] eqn:Hq.
  { exists (Z.of_nat v), l. split; [done|]. right. by exists v, sv, q. }
  rewrite (bind_get_state _ _ _ _ Hsv).
  destruct (decide (v = 0)) as [->|Hne].
  - rewrite (inv_link0 _ _ _ Hinv _ Hsv). rewrite decide_False by (intros Hx; by apply Hx).
    destruct fuel as [|fuel]; [lia|]. cbn [lcs_walk]. rewrite decide_True by done.
    exists (-1)%Z, l. split; [done|]. left. split; [done|].
    by eapply lcs_at_init.
  - destruct (inv_link _ _ _ Hinv v sv) as (u & Hlink & _); [lia|done|].
    destruct (lcs_at_link x c v l sv u) as (su & Hsu & Hat' & Hlt);
      [done..|lia|done|].
    rewrite Hlink. rewrite decide_True by lia.
    rewrite (bind_get_state _ _ _ _ Hsu).
    apply IH; [done|lia].
Qed.

(** After the [while] loop the matched suffix is extended by [c], or no
    suffix can be and the match is empty. *)
Lemma lcs_pos_reset x c :
  (∀ y, y `suffix_of` x → ¬ substring (y ++ [c]) s) → lcs_pos (x ++ [c]) 0 0.
Proof.
  intros Habs. split; [by apply (inv_pos Hinv)|]. exists []. split_and!; [|done|].
  - split_and!; [apply suffix_nil|apply substring_nil|].
    intros y [-> | (y' & -> & Hy')]%suffix_snoc_cases Hsub; [done|].
    by destruct (Habs y').
  - rewrite (inv_init _ _ _ Hinv). apply endpos_eq_refl.
Qed.

Lemma lcs_pos_step x c v l sv q :
  lcs_at x c v l → states σ !! v = Some sv → next sv !! c = Some q →
  lcs_pos (x ++ [c]) q (l + 1).
Proof.
  intros (Hv & w & Hwx & Hlen & Heq & Hlong) Hsv Hq.
  destruct (inv_next_some _ _ _ Hinv _ _ _ _ Hsv Hq) as [Hqlt Hvq].
  assert (endpos_eq s (w ++ [c]) (rep q)) as Hwq.
  { eapply endpos_eq_trans; [|exact Hvq]. by apply endpos_eq_snoc. }
  split; [done|]. exists (w ++ [c]). split_and!; [|by rewrite length_app, Hlen|done].
  split_and!.
  - by apply suffix_snoc_alt.
  - eapply endpos_eq_substring; [by apply endpos_eq_sym|].
    by apply (inv_sub _ _ _ Hinv).
  - intros y [-> | (y' & -> & Hy')]%suffix_snoc_cases Hsub;
      rewrite ?length_app; simpl; [lia|].
    destruct (decide (l < length y')) as [Hl|Hl]; [|lia].
    by destruct (Hlong y' Hy' Hl).
Qed.

Lemma lcs_loop_spec t : ∀ x v l best,
  lcs_pos x v l → is_lcs_len s x best →
  ∃ k, lcs_loop t (Z.of_nat v) l best σ = Ok (k, σ) ∧ is_lcs_len s (x ++ t) k.
Proof.
  induction t as [|c t IH]; intros x v l best Hpos Hbest.
  { exists best. by rewrite app_nil_r. }
  cbn [lcs_loop]. rewrite bind_num_states.
  assert (length (rep v) + 2 ≤ S (length (states σ))) as Hfuel.
  { destruct Hpos as [Hv _]. pose proof (inv_rep_length Hinv v Hv).
    pose proof (inv_count _ _ _ Hinv). lia. }
  destruct (lcs_walk_spec x c _ v l (lcs_pos_at x c v l Hpos) Hfuel)
    as (vf & lf & Hwalk & Hres).
  rewrite (bind_ok _ _ _ _ _ Hwalk). cbn [fst snd].
  replace (x ++ c :: t) with ((x ++ [c]) ++ t) by by rewrite <-(assoc_L (++)).
  destruct Hres as [[-> Habs] | (v' & sv & q & -> & Hsv & Hq & Hat)].
  - rewrite decide_True by done.
    apply (IH (x ++ [c]) 0 0 best); [by apply lcs_pos_reset|].
    pose proof (lcs_pos_reset x c Habs) as (_ & w & Hlong & Hlen & _).
    pose proof (is_lcs_len_snoc s x c best w Hbest Hlong) as Hsnoc.
    rewrite Hlen in Hsnoc. by rewrite decide_False in Hsnoc by lia.
  - rewrite decide_False by lia.
    rewrite (bind_get_state _ _ _ _ Hsv), (bind_dict_get _ _ _ _ _ Hq).
    apply IH; [by eapply lcs_pos_step|].
    pose proof (lcs_pos_step x c v' lf sv q Hat Hsv Hq) as (_ & w & Hlong & Hlen & _).
    pose proof (is_lcs_len_snoc s x c best w Hbest Hlong) as Hsnoc.
    by rewrite Hlen in Hsnoc.
Qed.

(** The query returns what the exhaustive scan computes, and leaves the
    automaton as it was. *)
Lemma lcs_correct t :
  longest_common_substring t σ = Ok (lcs_brute s t, σ).
Proof.
  destruct (lcs_loop_spec t [] 0 0 0 lcs_pos_nil (is_lcs_len_nil s))
    as (k & Hrun & Hk).
  rewrite <-(is_lcs_len_unique s t k (lcs_brute s t) Hk (lcs_brute_spec s t)).
  exact Hrun.
Qed.

End lcs.

(** ** What the invariant says about the fields *)

(** Suffix links go to states of strictly smaller [len]. *)
Definition link_decreases σ : Prop :=
  ∀ q sq, q ≠ 0 → states σ !! q = Some sq →
    ∃ sl, lookup_state (states σ) (link sq) = Some sl ∧ len sl < len sq.

(** Transitions go to states of strictly greater [len]. *)
Definition next_increases σ : Prop :=
  ∀ p sp c q, states σ !! p = Some sp → next sp !! c = Some q →
    ∃ sq, states σ !! q = Some sq ∧ len sp < len sq.

(** State 0 is the initial state. *)
Definition initial_fixed σ : Prop :=
  ∃ si, states σ !! 0 = Some si ∧ len si = 0 ∧ link si = (-1)%Z.

(** Along a walk [len] grows by at least one per symbol. *)
Lemma walk_len σ w : next_increases σ → ∀ v sv u,
  states σ !! v = Some sv → walk (states σ) v w = Some u →
  ∃ su, states σ !! u = Some su ∧ len sv + length w ≤ len su.
Proof.
  intros Hnext. induction w as [|c w IH]; intros v sv u Hsv; simpl.
  - intros [= <-]. exists sv. split; [done|lia].
  - rewrite Hsv. destruct (next sv !! c) as [q|] eqn:Hq; [|done]. intros Hwalk.
    destruct (Hnext _ _ _ _ Hsv Hq) as (sq & Hsq & Hlt).
    destruct (IH _ _ _ Hsq Hwalk) as (su & Hsu & Hle).
    exists su. split; [done|lia].
Qed.

(** The transition graph has no cycle: no walk of at least one symbol comes
    back to where it started. *)
Definition acyclic σ : Prop :=
  ∀ v w u, w ≠ [] → walk (states σ) v w = Some u → u ≠ v.

Lemma next_increases_acyclic σ : next_increases σ → acyclic σ.
Proof.
  intros Hnext v w u Hw Hwalk ->. destruct w as [|c w]; [done|].
  destruct (states σ !! v) as [sv|] eqn:Hsv; [|by simpl in Hwalk; rewrite Hsv in Hwalk].
  destruct (walk_len σ (c :: w) Hnext _ _ _ Hsv Hwalk) as (su & Hsu & Hle).
  simpl in Hle. simplify_eq. lia.
Qed.

Section props.
Context {s σ rep} (Hinv : sam_inv s σ rep).

Lemma inv_link_decreases : link_decreases σ.
Proof.
  intros q sq Hq Hsq.
  destruct (inv_link _ _ _ Hinv q sq) as (u & -> & Hu & _ & Hlt & _); [lia|done|].
  destruct (lookup_lt_is_Some_2 _ _ Hu) as [su Hsu].
  exists su. rewrite lookup_state_nat. split; [done|].
  by rewrite (inv_len _ _ _ Hinv _ _ Hsu), (inv_len _ _ _ Hinv _ _ Hsq).
Qed.

Lemma inv_next_increases : next_increases σ.
Proof.
  intros p sp c q Hsp Hq.
  destruct (inv_next_some _ _ _ Hinv _ _ _ _ Hsp Hq) as [Hlt Heq].
  destruct (lookup_lt_is_Some_2 _ _ Hlt) as [sq Hsq].
  exists sq. split; [done|].
  rewrite (inv_len _ _ _ Hinv _ _ Hsp), (inv_len _ _ _ Hinv _ _ Hsq).
  apply (inv_max _ _ _ Hinv _ _ Hlt), suffix_length in Heq.
  rewrite length_app in Heq. simpl in Heq. lia.
Qed.

Lemma inv_initial_fixed : initial_fixed σ.
Proof.
  destruct (lookup_lt_is_Some_2 (states σ) 0 (inv_pos Hinv)) as [si Hs0].
  exists si. split_and!; [done| |by apply (inv_link0 _ _ _ Hinv)].
  by rewrite (inv_len _ _ _ Hinv _ _ Hs0), (inv_init _ _ _ Hinv).
Qed.

(** A walk that stops early stops at a state that lacks the transition. *)
Lemma walk_None_inv w :
  walk (states σ) 0 w = None →
  ∃ w1 c w2 u su, w = w1 ++ c :: w2 ∧ walk (states σ) 0 w1 = Some u ∧
                  states σ !! u = Some su ∧ next su !! c = None.
Proof.
  induction w as [|c w IH] using rev_ind; [done|].
  rewrite walk_app. destruct (walk (states σ) 0 w) as [u|] eqn:Hwalk.
  - simpl. destruct (walk_sound Hinv w u Hwalk) as (Hu & _).
    destruct (lookup_lt_is_Some_2 _ _ Hu) as [su Hsu]. rewrite Hsu.
    destruct (next su !! c) as [q|] eqn:Hq; [done|]. intros _.
    by exists w, c, [], u, su.
  - intros _. destruct (IH eq_refl) as (w1 & c1 & w2 & u & su & -> & H1 & H2 & H3).
    exists w1, c1, (w2 ++ [c]), u, su. by rewrite <-(assoc_L (++)).
Qed.

Lemma walk_iff_substring w :
  is_Some (walk (states σ) 0 w) ↔ substring w s.
Proof.
  split.
  - intros [v Hv]. by destruct (walk_sound Hinv w v Hv) as (_ & Hsub & _).
  - intros (v & Hv & _)%(walk_complete Hinv). by exists v.
Qed.

End props.

(** ** Counting the transitions *)

(** [sum(len(st.next) for st in self.states)] *)
Definition num_transitions σ : nat := sum_list (size ∘ next <$> states σ).

(** The transitions as a list of triples (source, symbol, target). *)
Definition edges_from (k : nat) (sp : State A) : list (nat * A * nat) :=
  (λ cq, (k, cq.1, cq.2)) <$> map_to_list (next sp).

Fixpoint edges_at (k : nat) st : list (nat * A * nat) :=
  match st with
  | [] => []
  | sp :: st' => edges_from k sp ++ edges_at (S k) st'
  end.

Lemma length_edges_at st : ∀ k,
  length (edges_at k st) = sum_list (size ∘ next <$> st).
Proof.
  induction st as [|sp st IH]; intros k; simpl; [done|].
  unfold edges_from. by rewrite length_app, length_fmap, length_map_to_list, IH.
Qed.

Lemma elem_of_edges_from k sp p c q :
  (p, c, q) ∈ edges_from k sp ↔ p = k ∧ next sp !! c = Some q.
Proof.
  unfold edges_from. rewrite list_elem_of_fmap. split.
  - intros ([c' q'] & [= -> -> ->] & Hin%elem_of_map_to_list). by split.
  - intros [-> Hq]. exists (c, q). split; [done|]. by apply elem_of_map_to_list.
Qed.

Lemma elem_of_edges_at st : ∀ k p c q,
  (p, c, q) ∈ edges_at k st ↔
  ∃ sp, k ≤ p ∧ st !! (p - k) = Some sp ∧ next sp !! c = Some q.
Proof.
  induction st as [|sp st IH]; intros k p c q; simpl.
  { split; [by intros ?%elem_of_nil|by intros (? & _ & ? & _)]. }
  rewrite elem_of_app, elem_of_edges_from, IH. split.
  - intros [[-> Hq] | (sp' & Hle & Hsp' & Hq)].
    + exists sp. rewrite Nat.sub_diag. by split_and!.
    + exists sp'. split_and!; [lia| |done].
      by replace (p - k) with (S (p - S k)) by lia.
  - intros (sp' & Hle & Hsp' & Hq). destruct (decide (p = k)) as [->|Hne].
    + left. rewrite Nat.sub_diag in Hsp'. by simplify_eq/=.
    + right. exists sp'. split_and!; [lia| |done].
      by replace (p - k) with (S (p - S k)) in Hsp' by lia.
Qed.

Lemma NoDup_edges_at st : ∀ k, NoDup (edges_at k st).
Proof.
  induction st as [|sp st IH]; intros k; simpl; [constructor|].
  apply NoDup_app. split_and!; [|  |apply IH].
  - unfold edges_from. apply NoDup_fmap_2_strong; [|apply NoDup_map_to_list].
    by intros [c q] [c' q'] _ _ [= -> ->].
  - intros [[p c] q] [-> _]%elem_of_edges_from (sp' & Hle & _)%elem_of_edges_at.
    lia.
Qed.

(** Counting through a relation: when every element of a list without
    repetitions has a ticket from [dom] and no ticket is shared, the list is
    not longer than [dom]. *)
Lemma rel_pigeonhole {E K} (R : E → K → Prop) (l : list E) : ∀ dom : list K,
  NoDup l →
  (∀ e, e ∈ l → ∃ k, k ∈ dom ∧ R e k) →
  (∀ e e' k, e ∈ l → e' ∈ l → R e k → R e' k → e = e') →
  length l ≤ length dom.
Proof.
  induction l as [|a l IH]; intros dom Hnd Hex Hinj; simpl; [lia|].
  apply NoDup_cons in Hnd as [Ha Hnd].
  destruct (Hex a) as (k & Hk & HR); [by left|].
  apply elem_of_Permutation in Hk as [dom' Hdom].
  rewrite Hdom. simpl. apply le_n_S, IH; [done| |].
  - intros e He. destruct (Hex e) as (k' & Hk' & HR'); [by right|].
    exists k'. split; [|done].
    rewrite Hdom in Hk'. apply elem_of_cons in Hk' as [->|Hk']; [|done].
    destruct Ha. by rewrite (Hinj a e k); [|left|right|..].
  - intros e e' k' He He'. apply Hinj; by right.
Qed.

Lemma prefix_of_shorter (y x w : list A) :
  y `prefix_of` w → x `prefix_of` w → length y ≤ length x → y `prefix_of` x.
Proof.
  intros Hy Hx Hle. destruct (prefix_weak_total y x w) as [|Hxy]; [done..|].
  by rewrite (prefix_length_eq _ _ Hxy Hle).
Qed.

Lemma suffix_same_length (y x w : list A) :
  y `suffix_of` w → x `suffix_of` w → length y = length x → y = x.
Proof.
  intros Hy Hx Hlen. apply suffix_length_eq; [|lia].
  apply (suffix_of_shorter _ _ w); [done..|lia].
Qed.

Section count.
Context {s σ rep} (Hinv : sam_inv s σ rep).

(** A prefix of the longest string of a state is the longest string of its
    own state. *)
Lemma prefix_rep v y u :
  v < length (states σ) → y `prefix_of` rep v →
  u < length (states σ) → endpos_eq s y (rep u) → rep u = y.
Proof.
  intros Hv [r Hr] Hu Heq.
  pose proof (inv_max _ _ _ Hinv _ _ Hu Heq) as [a Ha].
  assert (endpos_eq s (a ++ rep v) (rep v)) as Hav.
  { intros x' Hx'. split; [intros Hs; etrans; [|exact Hs]; by apply suffix_app_r|].
    rewrite Hr. intros [k ->].
    assert (rep u `suffix_of` k ++ y) as [k' Hk'].
    { apply Heq; [|by exists k]. etrans; [|exact Hx'].
      exists r. by rewrite <-(assoc_L (++)). }
    rewrite Ha, (assoc_L (++)) in Hk'. apply app_inv_tail in Hk'. subst k.
    exists k'. by rewrite <-!(assoc_L (++)). }
  apply (inv_max _ _ _ Hinv _ _ Hv), suffix_length in Hav.
  rewrite length_app in Hav. destruct a; [by rewrite Ha|simpl in Hav; lia].
Qed.

Lemma rep_nil v : v < length (states σ) → rep v = [] → v = 0.
Proof.
  intros Hv Hnil. apply (inv_inj _ _ _ Hinv); [done|apply (inv_pos Hinv)|].
  rewrite Hnil, (inv_init _ _ _ Hinv). apply endpos_eq_refl.
Qed.

(** A transition is solid when it extends the longest string of its source
    to the longest string of its target. *)
Definition solid (e : nat * A * nat) : Prop :=
  length (rep e.2) = S (length (rep e.1.1)).

(** The ticket of a transition: its target when it is solid, else the length
    of a suffix of [s] that takes it straight after the longest string of its
    source. *)
Definition ticket (e : nat * A * nat) (k : nat + nat) : Prop :=
  match k with
  | inl j => solid e ∧ j = e.2
  | inr j => ¬ solid e ∧
      ∃ b, rep e.1.1 ++ [e.1.2] ++ b `suffix_of` s ∧
           length (rep e.1.1 ++ [e.1.2] ++ b) = j
  end.

Lemma edge_inv p c q :
  (p, c, q) ∈ edges_at 0 (states σ) →
  ∃ sp, states σ !! p = Some sp ∧ next sp !! c = Some q ∧
        p < length (states σ) ∧ q < length (states σ) ∧
        endpos_eq s (rep p ++ [c]) (rep q) ∧ rep p ++ [c] `suffix_of` rep q.
Proof.
  intros (sp & _ & Hsp & Hq)%elem_of_edges_at. rewrite Nat.sub_0_r in Hsp.
  destruct (inv_next_some _ _ _ Hinv _ _ _ _ Hsp Hq) as [Hqlt Heq].
  exists sp. split_and!; [done..|by eapply lookup_lt_Some|done|done|].
  by apply (inv_max _ _ _ Hinv).
Qed.

Lemma solid_rep p c q :
  (p, c, q) ∈ edges_at 0 (states σ) → solid (p, c, q) → rep q = rep p ++ [c].
Proof.
  intros (sp & _ & _ & _ & _ & _ & Hsuf)%edge_inv Hsolid.
  unfold solid in Hsolid. simpl in Hsolid. symmetry.
  apply suffix_length_eq; [done|]. rewrite length_app. simpl. lia.
Qed.

(** A transition out of a prefix of a longest string is solid. *)
Lemma prefix_solid p c q v :
  (p, c, q) ∈ edges_at 0 (states σ) → v < length (states σ) →
  rep p ++ [c] `prefix_of` rep v → solid (p, c, q).
Proof.
  intros (sp & _ & _ & _ & Hq & Heq & _)%edge_inv Hv Hpre.
  unfold solid. simpl. rewrite (prefix_rep v (rep p ++ [c]) q); [|done..].
  rewrite length_app. simpl. lia.
Qed.

Lemma ticket_exists dom e :
  (∀ w, w `suffix_of` s → w ≠ [] →
        (∀ v, v < length (states σ) → rep v ≠ w) → length w ∈ dom) →
  e ∈ edges_at 0 (states σ) →
  ∃ k, k ∈ (inl <$> seq 1 (length (states σ) - 1)) ++ (inr <$> dom) ∧
       ticket e k.
Proof.
  intros Hdom He. destruct e as [[p c] q].
  destruct (edge_inv p c q He) as (sp & Hsp & Hq & Hplt & Hqlt & Heq & Hsuf).
  destruct (decide (solid (p, c, q))) as [Hsolid|Hsolid].
  - exists (inl q). split; [|done].
    apply elem_of_app. left. apply list_elem_of_fmap. exists q. split; [done|].
    apply elem_of_seq. split; [|lia].
    destruct (decide (q = 0)) as [->|]; [|lia].
    unfold solid in Hsolid. simpl in Hsolid.
    by rewrite (inv_init _ _ _ Hinv) in Hsolid.
  - assert (substring (rep p ++ [c]) s) as (a & b & Hab).
    { eapply endpos_eq_substring; [by apply endpos_eq_sym|].
      by apply (inv_sub _ _ _ Hinv). }
    assert (rep p ++ [c] ++ b `suffix_of` s) as Hw.
    { exists a. by rewrite Hab, <-!(assoc_L (++)). }
    exists (inr (length (rep p ++ [c] ++ b))). split; [|split; [done|by exists b]].
    apply elem_of_app. right. apply list_elem_of_fmap. eexists. split; [done|].
    apply Hdom; [done|by destruct (rep p)|].
    intros v Hv Hrep. apply Hsolid, (prefix_solid p c q v); [done..|].
    rewrite Hrep. exists b. by rewrite <-(assoc_L (++)).
Qed.

Lemma ticket_inj_nonsolid p c q b p' c' b' :
  (p, c, q) ∈ edges_at 0 (states σ) → ¬ solid (p, c, q) →
  p' < length (states σ) →
  rep p ++ [c] ++ b = rep p' ++ [c'] ++ b' →
  ¬ length (rep p) < length (rep p').
Proof.
  intros He Hsolid Hp' Hw Hlt. apply Hsolid, (prefix_solid p c q p'); [done..|].
  apply (prefix_of_shorter _ _ (rep p ++ [c] ++ b)).
  - exists b. by rewrite <-(assoc_L (++)).
  - rewrite Hw. by eexists.
  - rewrite length_app. simpl. lia.
Qed.

Lemma ticket_inj e e' k :
  e ∈ edges_at 0 (states σ) → e' ∈ edges_at 0 (states σ) →
  ticket e k → ticket e' k → e = e'.
Proof.
  destruct e as [[p c] q], e' as [[p' c'] q']. intros He He'.
  destruct (edge_inv p c q He) as (sp & Hsp & Hq & Hplt & Hqlt & Heq & Hsuf).
  destruct (edge_inv p' c' q' He') as (sp' & Hsp' & Hq' & Hplt' & Hqlt' & Heq' & Hsuf').
  assert (rep p = rep p' → c = c' → (p, c, q) = (p', c', q')) as Hsame.
  { intros Hrep ->. assert (p = p') as ->.
    { apply (inv_inj _ _ _ Hinv); [done..|]. rewrite Hrep. apply endpos_eq_refl. }
    by simplify_eq. }
  destruct k as [j|j]; cbn [ticket fst snd].
  - intros [Hs ->] [Hs' ->].
    pose proof (solid_rep _ _ _ He Hs) as Hr.
    pose proof (solid_rep _ _ _ He' Hs') as Hr'.
    rewrite Hr in Hr'. apply app_inj_tail in Hr' as [Hrep ->]. by apply Hsame.
  - intros [Hs (b & Hb & Hlen)] [Hs' (b' & Hb' & Hlen')].
    assert (rep p ++ [c] ++ b = rep p' ++ [c'] ++ b') as Hw.
    { apply (suffix_same_length _ _ s); [done..|lia]. }
    pose proof (ticket_inj_nonsolid _ _ _ _ _ _ _ He Hs Hplt' Hw) as Hle.
    pose proof (ticket_inj_nonsolid _ _ _ _ _ _ _ He' Hs' Hplt (eq_sym Hw)) as Hle'.
    apply app_inj_1 in Hw as [Hrep Hrest]; [|lia].
    apply Hsame; [done|]. by simplify_eq/=.
Qed.

(** The transitions are at most the non-initial states plus the nonempty
    suffixes of [s] that are not the longest string of a state. *)
Lemma transitions_le dom :
  (∀ w, w `suffix_of` s → w ≠ [] →
        (∀ v, v < length (states σ) → rep v ≠ w) → length w ∈ dom) →
  num_transitions σ ≤ (length (states σ) - 1) + length dom.
Proof.
  intros Hdom. unfold num_transitions. rewrite <-(length_edges_at _ 0).
  etrans; [apply (rel_pigeonhole ticket _
    ((inl <$> seq 1 (length (states σ) - 1)) ++ (inr <$> dom)))|].
  - apply NoDup_edges_at.
  - intros e He. by apply ticket_exists.
  - apply ticket_inj.
  - by rewrite length_app, !length_fmap, length_seq.
Qed.

Lemma transitions_le_general :
  1 ≤ length s → num_transitions σ + 2 ≤ length (states σ) + length s.
Proof.
  intros Hn. pose proof (inv_pos Hinv).
  pose proof (transitions_le (seq 1 (length s - 1))) as Hle.
  rewrite length_seq in Hle. etrans; [apply Nat.add_le_mono_r, Hle|lia].
  intros w Hw Hne Hrep. apply elem_of_seq.
  pose proof (suffix_length _ _ Hw). destruct w as [|a w]; [done|]. simpl in *.
  destruct (decide (S (length w) = length s)) as [Heq|]; [|lia].
  destruct (Hrep (last σ)); [apply (inv_last_lt _ _ _ Hinv)|].
  rewrite (inv_last _ _ _ Hinv). symmetry. apply suffix_length_eq; [done|].
  simpl. lia.
Qed.

(** When the suffix link of [last] is not the initial state, one more
    suffix is the longest string of a state. *)
Lemma transitions_le_link sl :
  2 ≤ length s → states σ !! last σ = Some sl → link sl ≠ 0%Z →
  num_transitions σ + 3 ≤ length (states σ) + length s.
Proof.
  intros Hn Hsl Hlink. pose proof (inv_pos Hinv).
  pose proof (inv_last _ _ _ Hinv) as Hlast.
  assert (0 < last σ) as Hpos.
  { destruct (decide (last σ = 0)) as [Hl0|]; [|lia].
    rewrite Hl0, (inv_init _ _ _ Hinv) in Hlast. subst s. simpl in Hn. lia. }
  destruct (inv_link _ _ _ Hinv _ _ Hpos Hsl) as (u & Hu & Hult & Hsuf & Hlt & _).
  rewrite Hlast in Hsuf, Hlt.
  assert (0 < length (rep u)) as Hm.
  { destruct (rep u) eqn:Hrep; [|simpl; lia].
    apply rep_nil in Hrep; [|done]. subst u. by destruct Hlink. }
  pose proof (transitions_le
    (seq 1 (length (rep u) - 1) ++
     seq (S (length (rep u))) (length s - 1 - length (rep u)))) as Hle.
  rewrite length_app, !length_seq in Hle.
  etrans; [apply Nat.add_le_mono_r, Hle|lia].
  intros w Hw Hne Hrep. pose proof (suffix_length _ _ Hw).
  assert (length w ≠ length s) as Hns.
  { intros Heq. destruct (Hrep (last σ)); [apply (inv_last_lt _ _ _ Hinv)|].
    rewrite Hlast. symmetry. apply suffix_length_eq; [done|lia]. }
  assert (length w ≠ length (rep u)) as Hnu.
  { intros Heq. destruct (Hrep u Hult). symmetry.
    by apply (suffix_same_length _ _ s). }
  assert (0 < length w) by (destruct w; [done|simpl; lia]).
  apply elem_of_app. rewrite !elem_of_seq. lia.
Qed.

(** The bound on the transitions, from the bound on the states. *)
Lemma transitions_bound :
  count_inv s σ → 3 ≤ length s → num_transitions σ ≤ 3 * length s - 4.
Proof.
  intros (_ & H2 & H3) Hn.
  assert (2 ≤ length s) as Hn2 by lia. specialize (H2 Hn2).
  destruct (H3 Hn) as [Hle | (sl & Hsl & Hlink)].
  - pose proof (transitions_le_general ltac:(lia)). lia.
  - pose proof (transitions_le_link sl Hn2 Hsl Hlink). lia.
Qed.

End count.

(** ** States, strings and suffix links *)

(** The states met by following suffix links from index [i], the start
    included, until the sentinel. *)
Fixpoint link_chain st (fuel : nat) (i : Z) : list nat :=
  match fuel with
  | 0 => []
  | S fuel =>
      match lookup_state st i with
      | Some sv => Z.to_nat i :: link_chain st fuel (link sv)
      | None => []
      end
  end.

(** The chain of [last]. *)
Definition terminal_states σ : list nat :=
  link_chain (states σ) (length (states σ)) (Z.of_nat (last σ)).

Lemma link_chain_neg st fuel : link_chain st fuel (-1) = [].
Proof. by destruct fuel. Qed.

Section structure.
Context {s σ rep} (Hinv : sam_inv s σ rep).

(** A string leads to the state of its class. *)
Lemma walk_target w v :
  v < length (states σ) → endpos_eq s w (rep v) →
  walk (states σ) 0 w = Some v.
Proof.
  intros Hv Heq.
  assert (substring w s) as Hsub.
  { eapply endpos_eq_substring; [by apply endpos_eq_sym|].
    by apply (inv_sub _ _ _ Hinv). }
  destruct (walk_complete Hinv w Hsub) as (v' & Hwalk & Hv' & Heq').
  rewrite Hwalk. f_equal. apply (inv_inj _ _ _ Hinv); [done..|].
  exact (endpos_eq_trans _ _ _ _ (endpos_eq_sym _ _ _ Heq') Heq).
Qed.

Lemma walk_rep v :
  v < length (states σ) → walk (states σ) 0 (rep v) = Some v.
Proof. intros Hv. apply walk_target; [done|apply endpos_eq_refl]. Qed.

Lemma walk_last : walk (states σ) 0 s = Some (last σ).
Proof.
  pose proof (walk_rep (last σ) (inv_last_lt _ _ _ Hinv)) as Hwalk.
  by rewrite (inv_last _ _ _ Hinv) in Hwalk.
Qed.

Lemma walk_same_state w w' :
  substring w s → substring w' s →
  (walk (states σ) 0 w = walk (states σ) 0 w' ↔ endpos_eq s w w').
Proof.
  intros Hw Hw'.
  destruct (walk_complete Hinv w Hw) as (v & Hwalk & Hv & Heq). split.
  - rewrite Hwalk. intros Hwalk'. symmetry in Hwalk'.
    destruct (walk_sound Hinv w' v Hwalk') as (_ & _ & Heq').
    exact (endpos_eq_trans _ _ _ _ Heq (endpos_eq_sym _ _ _ Heq')).
  - intros Hww. rewrite Hwalk. symmetry. apply walk_target; [done|].
    exact (endpos_eq_trans _ _ _ _ (endpos_eq_sym _ _ _ Hww) Heq).
Qed.

Lemma walk_nonempty w v : w ≠ [] → walk (states σ) 0 w = Some v → v ≠ 0.
Proof.
  intros Hne Hwalk ->. destruct (walk_sound Hinv w 0 Hwalk) as (Hv & _ & Heq).
  apply (inv_max _ _ _ Hinv _ _ Hv) in Heq.
  rewrite (inv_init _ _ _ Hinv) in Heq. by apply suffix_nil_inv in Heq.
Qed.

(** The lengths of the strings that lead to a state: above [len] of its
    suffix link, up to its own [len]; and where their suffixes lead. *)
Lemma walk_class w v sv :
  walk (states σ) 0 w = Some v → v ≠ 0 → states σ !! v = Some sv →
  ∃ u su, link sv = Z.of_nat u ∧ states σ !! u = Some su ∧
    len su < length w ≤ len sv ∧
    ∀ y, y `suffix_of` w →
      (len su < length y → walk (states σ) 0 y = Some v) ∧
      (length y = len su → walk (states σ) 0 y = Some u).
Proof.
  intros Hwalk Hne Hsv.
  destruct (walk_sound Hinv w v Hwalk) as (Hv & Hsub & Heq).
  pose proof (inv_max _ _ _ Hinv _ _ Hv Heq) as Hwv.
  destruct (inv_link _ _ _ Hinv v sv) as (u & Hlink & Hu & Hsuf & Hlt & Hcls);
    [lia|done|].
  destruct (lookup_lt_is_Some_2 _ _ Hu) as [su Hsu].
  assert (length (rep u) < length w) as Hshort.
  { destruct (decide (length (rep u) < length w)) as [|Hge]; [done|].
    assert (w `suffix_of` rep u) as Hwu.
    { apply (suffix_of_shorter _ _ (rep v)); [done..|lia]. }
    pose proof (endpos_eq_between s w (rep u) (rep v) Hwu Hsuf Heq) as Huv.
    pose proof (inv_inj _ _ _ Hinv _ _ Hu Hv Huv) as Heq'. subst u. lia. }
  exists u, su.
  rewrite (inv_len _ _ _ Hinv _ _ Hsu), (inv_len _ _ _ Hinv _ _ Hsv).
  split_and!; [done..|lia|by apply suffix_length|].
  intros y Hy. assert (y `suffix_of` rep v) as Hyv by by etrans. split.
  - intros Hlong. apply walk_target; [done|]. by apply Hcls.
  - intros Hlen. rewrite (suffix_same_length y (rep u) (rep v)); [|done..].
    by apply walk_rep.
Qed.

Lemma len_bounds v sv :
  states σ !! v = Some sv →
  (∃ w, length w = len sv ∧ walk (states σ) 0 w = Some v) ∧
  (∀ w, walk (states σ) 0 w = Some v → length w ≤ len sv).
Proof.
  intros Hsv. pose proof (lookup_lt_Some _ _ _ Hsv) as Hv.
  rewrite (inv_len _ _ _ Hinv _ _ Hsv). split.
  - exists (rep v). split; [done|by apply walk_rep].
  - intros w Hwalk. destruct (walk_sound Hinv w v Hwalk) as (_ & _ & Heq).
    by apply suffix_length, (inv_max _ _ _ Hinv).
Qed.

(** The chain of suffix links of a state whose longest string is a suffix
    of [s]: the states whose longest string is a suffix of [s] that is not
    longer. *)
Lemma link_chain_spec fuel : ∀ v,
  v < length (states σ) → rep v `suffix_of` s → length (rep v) < fuel →
  ∀ u, u ∈ link_chain (states σ) fuel (Z.of_nat v) ↔
       u < length (states σ) ∧ rep u `suffix_of` s ∧
       length (rep u) ≤ length (rep v).
Proof.
  induction fuel as [|fuel IH]; intros v Hv Hsuf Hfuel u; [lia|].
  destruct (lookup_lt_is_Some_2 _ _ Hv) as [sv Hsv].
  cbn [link_chain]. rewrite lookup_state_nat, Hsv, Nat2Z.id, elem_of_cons.
  destruct (decide (v = 0)) as [->|Hne].
  - rewrite (inv_link0 _ _ _ Hinv _ Hsv), link_chain_neg.
    rewrite (inv_init _ _ _ Hinv). simpl. split.
    + intros [-> | []%elem_of_nil]. rewrite (inv_init _ _ _ Hinv).
      split_and!; [done|apply suffix_nil|done].
    + intros (Hu & _ & Hlen). left. apply (rep_nil Hinv); [done|].
      destruct (rep u); [done|simpl in Hlen; lia].
  - destruct (inv_link _ _ _ Hinv v sv)
      as (u0 & Hlink & Hu0 & Hsuf0 & Hlt & Hcls); [lia|done|].
    rewrite Hlink, (IH u0); [|done|by etrans|lia]. split.
    + intros [-> | (Hu & Hus & Hle)]; [done|]. split_and!; [done..|lia].
    + intros (Hu & Hus & Hle).
      destruct (decide (length (rep u) ≤ length (rep u0))) as [|Hlong];
        [by right|]. left.
      apply (inv_inj _ _ _ Hinv); [done..|]. apply Hcls; [|lia].
      by apply (suffix_of_shorter _ _ s).
Qed.

(** The strings that lead to a state on the chain of [last] are the
    suffixes of [s]. *)
Lemma terminal_iff_suffix w :
  w `suffix_of` s ↔
  ∃ v, walk (states σ) 0 w = Some v ∧ v ∈ terminal_states σ.
Proof.
  assert (∀ v, v ∈ terminal_states σ ↔
               v < length (states σ) ∧ rep v `suffix_of` s) as Hterm.
  { intros v. unfold terminal_states. rewrite link_chain_spec.
    - rewrite (inv_last _ _ _ Hinv). split; [by intros (? & ? & _)|].
      intros [? Hs]. split_and!; [done..|by apply suffix_length].
    - apply (inv_last_lt _ _ _ Hinv).
    - by rewrite (inv_last _ _ _ Hinv).
    - rewrite (inv_last _ _ _ Hinv). apply (inv_count _ _ _ Hinv). }
  split.
  - intros Hw. destruct (inv_cover_suffix Hinv w Hw) as (v & Hv & Heq & Hvs & _).
    exists v. split; [by apply walk_target|]. by apply Hterm.
  - intros (v & Hwalk & [Hv Hvs]%Hterm).
    destruct (walk_sound Hinv w v Hwalk) as (_ & _ & Heq). by apply Heq.
Qed.

End structure.
End Invariant.

(** * The properties of the automaton *)

Section Claims.
Context {A : Type} `{Countable A}.
Implicit Types (s t w : list A) (σ : SuffixAutomaton A) (c : A).

(** What every other statement starts from: the constructor returns, what it
    returns satisfies the invariant, and so does the automaton after one more
    [extend]. *)
Lemma init_extend_inv s :
  ∃ σ rep, SuffixAutomaton_init s = Ok (tt, σ) ∧ sam_inv s σ rep ∧
    count_inv s σ ∧
    ∀ c, ∃ σ' rep', extend c σ = Ok (tt, σ') ∧ sam_inv (s ++ [c]) σ' rep'.
Proof.
  destruct (init_inv s) as (σ & rep & Hrun & Hinv & Hcount).
  exists σ, rep. split_and!; [done..|]. intros c.
  destruct (extend_inv Hinv c) as (σ' & rep' & Hext & Hinv' & _).
  by exists σ', rep'.
Qed.

(** The constructor is the sequence of [extend] calls: building from
    [s ++ [c]] is building from [s] and extending by [c]. *)
Lemma extend_all_snoc s c σ :
  extend_all (s ++ [c]) σ = (do extend_all s then extend c) σ.
Proof.
  revert σ. induction s as [|a s IH]; intros σ; simpl.
  - unfold bind, ret. by destruct (extend c σ) as [[[] σ']|e].
  - rewrite bind_assoc. destruct (extend a σ) as [[[] σ']|e] eqn:Hext.
    + rewrite !(bind_ok _ _ _ _ _ Hext). apply IH.
    + unfold bind. by rewrite Hext.
Qed.

(** C1: for the automaton built from [s] and every text [t], the query
    returns the length of the longest substring common to [s] and [t]; this
    is the number the exhaustive scan [lcs_brute] computes. *)
Theorem longest_common_substring_correct s t :
  ∃ σ, SuffixAutomaton_init s = Ok (tt, σ) ∧
       longest_common_substring t σ = Ok (lcs_brute s t, σ) ∧
       is_lcs_len s t (lcs_brute s t).
Proof.
  destruct (init_inv s) as (σ & rep & Hrun & Hinv & _).
  exists σ. split_and!; [done|apply (lcs_correct Hinv)|apply lcs_brute_spec].
Qed.

(** C2: in the automaton built from [s], the walk from state 0 along [w]
    finds all its transitions exactly when [w] is a substring of [s]; when
    [w] is not a substring, the walk reaches a state that has no transition
    on the next symbol of [w]. *)
Theorem walk_decides_substring s w :
  ∃ σ, SuffixAutomaton_init s = Ok (tt, σ) ∧
    (substring w s ↔ is_Some (walk (states σ) 0 w)) ∧
    (¬ substring w s →
       ∃ w1 c w2 u su, w = w1 ++ c :: w2 ∧
         walk (states σ) 0 w1 = Some u ∧ states σ !! u = Some su ∧
         next su !! c = None).
Proof.
  destruct (init_inv s) as (σ & rep & Hrun & Hinv & _).
  exists σ. split_and!; [done|by rewrite (walk_iff_substring Hinv)|].
  intros Hsub. apply (walk_None_inv Hinv).
  destruct (walk (states σ) 0 w) as [v|] eqn:Hwalk; [|done].
  destruct Hsub. apply (walk_iff_substring Hinv). by exists v.
Qed.

(** C3: in the automaton built from any [s], and again after one more
    [extend], the suffix link of every state but the initial one is the
    index of a state of strictly smaller [len]. *)
Theorem suffix_link_decreases_len s :
  ∃ σ, SuffixAutomaton_init s = Ok (tt, σ) ∧ link_decreases σ ∧
    ∀ c, ∃ σ', extend c σ = Ok (tt, σ') ∧ link_decreases σ'.
Proof.
  destruct (init_extend_inv s) as (σ & rep & Hrun & Hinv & _ & Hext).
  exists σ. split_and!; [done|apply (inv_link_decreases Hinv)|].
  intros c. destruct (Hext c) as (σ' & rep' & Hrun' & Hinv').
  exists σ'. split; [done|apply (inv_link_decreases Hinv')].
Qed.

(** C5: in the automaton built from any [s], and again after one more
    [extend], every transition goes to a state of strictly greater [len], and
    no walk of one symbol or more ends in the state it started from. *)
Theorem transitions_increase_len s :
  ∃ σ, SuffixAutomaton_init s = Ok (tt, σ) ∧
    next_increases σ ∧ acyclic σ ∧
    ∀ c, ∃ σ', extend c σ = Ok (tt, σ') ∧ next_increases σ' ∧ acyclic σ'.
Proof.
  destruct (init_extend_inv s) as (σ & rep & Hrun & Hinv & _ & Hext).
  pose proof (inv_next_increases Hinv) as Hnext.
  exists σ. split_and!; [done..|by apply next_increases_acyclic|].
  intros c. destruct (Hext c) as (σ' & rep' & Hrun' & Hinv').
  pose proof (inv_next_increases Hinv') as Hnext'.
  exists σ'. split_and!; [done..|by apply next_increases_acyclic].
Qed.

(** C6: in the automaton built from any [s], and again after one more
    [extend], state 0 has [len = 0] and [link = -1]. *)
Theorem initial_state_permanent s :
  ∃ σ, SuffixAutomaton_init s = Ok (tt, σ) ∧ initial_fixed σ ∧
    ∀ c, ∃ σ', extend c σ = Ok (tt, σ') ∧ initial_fixed σ'.
Proof.
  destruct (init_extend_inv s) as (σ & rep & Hrun & Hinv & _ & Hext).
  exists σ. split_and!; [done|apply (inv_initial_fixed Hinv)|].
  intros c. destruct (Hext c) as (σ' & rep' & Hrun' & Hinv').
  exists σ'. split; [done|apply (inv_initial_fixed Hinv')].
Qed.

(** C9: the constructor returns for every string, and on the automaton it
    returns [extend] returns for every symbol and the query returns for every
    text: no list index is out of range, the sentinel is never used as an
    index, no dictionary lookup misses its key, and no loop runs longer than
    the number of states. *)
Theorem operations_total s :
  ∃ σ, SuffixAutomaton_init s = Ok (tt, σ) ∧
    (∀ c, ∃ σ', extend c σ = Ok (tt, σ')) ∧
    (∀ t, ∃ k, longest_common_substring t σ = Ok (k, σ)).
Proof.
  destruct (init_extend_inv s) as (σ & rep & Hrun & Hinv & _ & Hext).
  exists σ. split_and!; [done| |].
  - intros c. destruct (Hext c) as (σ' & _ & Hrun' & _). by exists σ'.
  - intros t. exists (lcs_brute s t). apply (lcs_correct Hinv).
Qed.

(** C4, amended: the automaton built from [s] has at most [2|s| - 1] states
    when [|s| >= 2], and at most [3|s| - 4] transitions when [|s| >= 3]; for
    [|s| = 2] it has at most 3 transitions. *)
Theorem state_and_transition_bounds s :
  ∃ σ, SuffixAutomaton_init s = Ok (tt, σ) ∧
    (2 ≤ length s → length (states σ) ≤ 2 * length s - 1) ∧
    (3 ≤ length s → num_transitions σ ≤ 3 * length s - 4) ∧
    (length s = 2 → num_transitions σ ≤ 3).
Proof.
  destruct (init_inv s) as (σ & rep & Hrun & Hinv & Hcount).
  exists σ. split_and!; [done|apply Hcount|by apply (transitions_bound Hinv)|].
  intros Hn. destruct Hcount as (_ & Hstates & _).
  pose proof (transitions_le_general Hinv). lia.
Qed.

(** C7: on the automaton built from any [s], a call of [extend] returns; it
    appends two states in the split case ([splits]: the first loop stops at a
    state [p] whose transition on the symbol goes to a state [q] with
    [len q ≠ len p + 1]) and one state in every other case, and every state
    that was there is still there with its [len].  And on any automaton, a
    call that returns has kept every state that was there with its [len], has
    put its first new state [cur] at the old number of states, and has
    appended a second state exactly when it has linked [cur] to that second
    state, the clone. *)
Theorem extend_frame :
  (∀ s c, ∃ σ σ',
     SuffixAutomaton_init s = Ok (tt, σ) ∧ extend c σ = Ok (tt, σ') ∧
     length (states σ') = length (states σ) + (if splits c σ then 2 else 1) ∧
     ∀ v sv, states σ !! v = Some sv →
       ∃ sv', states σ' !! v = Some sv' ∧ len sv' = len sv) ∧
  (∀ c σ σ', extend c σ = Ok (tt, σ') →
     (∀ v sv, states σ !! v = Some sv →
        ∃ sv', states σ' !! v = Some sv' ∧ len sv' = len sv) ∧
     ∃ scur, states σ' !! length (states σ) = Some scur ∧
       ((length (states σ') = length (states σ) + 1 ∧
         (link scur < Z.of_nat (length (states σ) + 1))%Z) ∨
        (length (states σ') = length (states σ) + 2 ∧
         link scur = Z.of_nat (length (states σ) + 1)))).
Proof.
  split.
  - intros s c. destruct (init_inv s) as (σ & rep & Hrun & Hinv & _).
    destruct (extend_inv_splits Hinv c) as (σ' & _ & Hext & _ & _ & Hlen).
    exists σ, σ'. split_and!; [done..|].
    by destruct (extend_keeps_len c σ σ' Hext).
  - intros c σ σ' Hext. split.
    + by destruct (extend_keeps_len c σ σ' Hext).
    + by apply (extend_new_states c).
Qed.

End Claims.

(** * Concrete automata *)

(** The automaton of a string over the numbers, for the runs below. *)
Definition sam_of (s : list nat) : SuffixAutomaton nat :=
  match SuffixAutomaton_init s with
  | Ok (_, σ) => σ
  | Err _ => empty_automaton
  end.

(** C4 as the specification has it fails for the string ab: its automaton
    has the three transitions 0-a->1, 0-b->2 and 1-b->2, one more than
    [3 * 2 - 4]. *)
Lemma transition_bound_fails_at_two :
  ¬ ∀ (s : list nat) σ, 2 ≤ length s → SuffixAutomaton_init s = Ok (tt, σ) →
      length (states σ) ≤ 2 * length s - 1 ∧
      num_transitions σ ≤ 3 * length s - 4.
Proof.
  intros Hall.
  assert (SuffixAutomaton_init [0; 1] = Ok (tt, sam_of [0; 1])) as Hrun
    by (vm_compute; reflexivity).
  destruct (Hall [0; 1] (sam_of [0; 1])) as [_ Hle]; [simpl; lia|done|].
  assert (num_transitions (sam_of [0; 1]) = 3) as Hnum
    by (vm_compute; reflexivity).
  rewrite Hnum in Hle. simpl in Hle. lia.
Qed.

(** Two runs with the same start have the same final automaton. *)
Lemma Ok_state_inj {X Y} (x x' : X) (y y' : Y) :
  Ok (x, y) = Ok (x', y') → y = y'.
Proof. by intros [= _ ->]. Qed.

(** The third symbol of abb splits a state: [extend] appends [cur] and a
    clone, and links [cur] to the clone. *)
Lemma extend_frame_witness :
  splits 1 (sam_of [0; 1]) = true ∧
  extend 1 (sam_of [0; 1]) = Ok (tt, sam_of [0; 1; 1]) ∧
  length (states (sam_of [0; 1; 1])) = length (states (sam_of [0; 1])) + 2 ∧
  (∀ v sv, states (sam_of [0; 1]) !! v = Some sv →
     ∃ sv', states (sam_of [0; 1; 1]) !! v = Some sv' ∧ len sv' = len sv) ∧
  ∃ scur,
    states (sam_of [0; 1; 1]) !! length (states (sam_of [0; 1])) = Some scur ∧
    ((length (states (sam_of [0; 1; 1])) = length (states (sam_of [0; 1])) + 1 ∧
      Z.lt (link scur) (Z.of_nat (length (states (sam_of [0; 1])) + 1))) ∨
     (length (states (sam_of [0; 1; 1])) = length (states (sam_of [0; 1])) + 2 ∧
      link scur = Z.of_nat (length (states (sam_of [0; 1])) + 1))).
Proof.
  assert (SuffixAutomaton_init [0; 1] = Ok (tt, sam_of [0; 1])) as Hinit
    by (vm_compute; reflexivity).
  assert (extend 1 (sam_of [0; 1]) = Ok (tt, sam_of [0; 1; 1])) as Hrun
    by (vm_compute; reflexivity).
  assert (splits 1 (sam_of [0; 1]) = true) as Hsplit
    by (vm_compute; reflexivity).
  destruct (proj1 extend_frame [0; 1] 1) as (σ & σ' & Hσ & Hσ' & Hlen & _).
  pose proof (Ok_state_inj _ _ _ _ (eq_trans (eq_sym Hinit) Hσ)) as Heq.
  subst σ.
  pose proof (Ok_state_inj _ _ _ _ (eq_trans (eq_sym Hrun) Hσ')) as Heq.
  subst σ'.
  rewrite Hsplit in Hlen.
  destruct (proj2 extend_frame 1 _ _ Hrun) as [Hkeep Hcur].
  split_and!; [exact Hsplit|exact Hrun|exact Hlen|exact Hkeep|exact Hcur].
Defined.

(** Two calls that do not split, on the automaton of ab: the symbol c is on
    no state of the chain and the loop ends at the sentinel; the symbol a is
    on the initial state and goes to a state of [len] 1. *)
Example extend_without_split :
  splits 2 (sam_of [0; 1]) = false ∧
  length (states (sam_of [0; 1; 2])) = length (states (sam_of [0; 1])) + 1 ∧
  splits 0 (sam_of [0; 1]) = false ∧
  length (states (sam_of [0; 1; 0])) = length (states (sam_of [0; 1])) + 1.
Proof. vm_compute. by split_and!. Qed.

(** A query on the automaton of ab with the text bc. *)
Lemma longest_common_substring_pure_witness :
  ∃ n σ', longest_common_substring [1; 2] (sam_of [0; 1]) = Ok (n, σ') ∧
          σ' = sam_of [0; 1].
Proof.
  assert (longest_common_substring [1; 2] (sam_of [0; 1])
          = Ok (1, sam_of [0; 1])) as Hrun by (vm_compute; reflexivity).
  exists 1, (sam_of [0; 1]). split; [exact Hrun|].
  exact (longest_common_substring_pure _ _ _ _ Hrun).
Defined.

(** The self-checks of the source file and the scenarios of the
    specification, on strings of characters.  The strings below are ASCII
    only: there the bytes that [chars] lists are the characters that Python
    iterates over (outside ASCII a character is several bytes, and [chars]
    is not the iteration of the source). *)
Definition chars (s : string) : list Ascii.ascii := String.list_ascii_of_string s.

Definition lcs_of (s t : string) : res nat :=
  match SuffixAutomaton_init (chars s) with
  | Ok (_, σ) =>
      match longest_common_substring (chars t) σ with
      | Ok (n, _) => Ok n
      | Err e => Err e
      end
  | Err e => Err e
  end.

Example lcs_abacaba_acab : lcs_of "abacaba" "acab" = Ok 4.
Proof. vm_compute. reflexivity. Qed.

Example lcs_abacaba_xyz : lcs_of "abacaba" "xyz" = Ok 0.
Proof. vm_compute. reflexivity. Qed.

Example lcs_banana_ananas : lcs_of "banana" "ananas" = Ok 5.
Proof. vm_compute. reflexivity. Qed.

Example lcs_aaaa_aaaaaaaa : lcs_of "aaaa" "aaaaaaaa" = Ok 4.
Proof. vm_compute. reflexivity. Qed.

Example lcs_empty_abc : lcs_of "" "abc" = Ok 0.
Proof. vm_compute. reflexivity. Qed.

Example brute_banana_ananas : lcs_brute (chars "banana") (chars "ananas") = 5.
Proof. vm_compute. reflexivity. Qed.

(** * Further properties of the construction and of the query *)

Section LcsFacts.
Context {A : Type} `{EqDecision A}.
Implicit Types s t w : list A.

Lemma substring_same_length w t :
  substring w t → length w = length t → w = t.
Proof.
  intros (a & b & ->). rewrite !length_app. intros Hlen.
  assert (a = []) as -> by (apply nil_length_inv; lia).
  assert (b = []) as -> by (apply nil_length_inv; lia).
  by rewrite app_nil_r.
Qed.

Lemma substring_app_l w s s' : substring w s → substring w (s ++ s').
Proof.
  intros Hw. eapply substring_trans; [exact Hw|]. by exists [], s'.
Qed.

Lemma substring_singleton (c : A) s : substring [c] s ↔ c ∈ s.
Proof.
  split.
  - intros (a & b & ->). rewrite !elem_of_app, list_elem_of_singleton. tauto.
  - intros (a & b & ->)%list_elem_of_split. by exists a, b.
Qed.

Lemma is_lcs_len_le s t k :
  is_lcs_len s t k → k ≤ length s ∧ k ≤ length t.
Proof.
  intros [(w & Hs & Ht & <-) _]. split; by apply substring_length.
Qed.

Lemma is_lcs_len_sym s t k : is_lcs_len s t k → is_lcs_len t s k.
Proof.
  intros [(w & Hs & Ht & Hlen) Hmax]. split; [by exists w|].
  intros w' Ht' Hs'. by apply Hmax.
Qed.

Lemma is_lcs_len_full s t k :
  is_lcs_len s t k → (k = length t ↔ substring t s).
Proof.
  intros [(w & Hs & Ht & Hlen) Hmax]. split.
  - intros ->. by rewrite <-(substring_same_length w t).
  - intros Hsub. pose proof (Hmax t Hsub (substring_refl t)).
    apply substring_length in Ht. lia.
Qed.

Lemma is_lcs_len_zero s t k :
  is_lcs_len s t k → (k = 0 ↔ ∀ c, c ∈ s → c ∉ t).
Proof.
  intros [(w & Hs & Ht & Hlen) Hmax]. split.
  - intros -> c Hcs%substring_singleton Hct%substring_singleton.
    specialize (Hmax [c] Hcs Hct). simpl in Hmax. lia.
  - intros Hno. destruct w as [|c w]; [done|].
    destruct (Hno c); apply substring_singleton.
    + eapply substring_prefix; [|exact Hs]. by exists w.
    + eapply substring_prefix; [|exact Ht]. by exists w.
Qed.

Lemma is_lcs_len_snoc_bounds s c t k k' :
  is_lcs_len s t k → is_lcs_len (s ++ [c]) t k' → k ≤ k' ≤ k + 1.
Proof.
  intros [(w & Hs & Ht & Hlen) Hmax] [(w' & Hs' & Ht' & Hlen') Hmax']. split.
  - rewrite <-Hlen. apply Hmax'; [by apply substring_app_l|done].
  - rewrite <-Hlen'. apply substring_extend in Hs' as [Hold | Hsuf].
    { specialize (Hmax w' Hold Ht'). lia. }
    apply suffix_snoc_cases in Hsuf as [-> | (y & -> & Hy)]; [simpl; lia|].
    rewrite length_app. simpl. apply Nat.add_le_mono_r, Hmax.
    + by apply suffix_substring.
    + by eapply substring_snoc_l.
Qed.

End LcsFacts.

Section Extras.
Context {A : Type} `{Countable A}.
Implicit Types (s t w : list A) (σ : SuffixAutomaton A) (c : A).

Lemma extend_all_app s t σ :
  extend_all (s ++ t) σ = (do extend_all s then extend_all t) σ.
Proof.
  revert σ. induction s as [|a s IH]; intros σ; simpl; [done|].
  rewrite bind_assoc. destruct (extend a σ) as [[[] σ']|e] eqn:Hext.
  - rewrite !(bind_ok _ _ _ _ _ Hext). apply IH.
  - unfold bind. by rewrite Hext.
Qed.

(** X3: the construction is online: the automaton built from [s], extended by
    the symbols of [t] one after the other, is the automaton built from
    [s ++ t]. *)
Theorem build_online s t :
  ∃ σ σ', SuffixAutomaton_init s = Ok (tt, σ) ∧
          extend_all t σ = Ok (tt, σ') ∧
          SuffixAutomaton_init (s ++ t) = Ok (tt, σ').
Proof.
  destruct (init_inv s) as (σ & rep & Hrun & _).
  destruct (init_inv (s ++ t)) as (σ' & rep' & Hrun' & _).
  exists σ, σ'. split_and!; [done| |done].
  unfold SuffixAutomaton_init in Hrun, Hrun'.
  by rewrite extend_all_app, (bind_ok _ _ _ _ _ Hrun) in Hrun'.
Qed.

(** X4: in the automaton built from [s], [last] is the state the whole of
    [s] leads to; its [len] is the length of [s], no state has a larger
    [len], and there are more states than symbols in [s]. *)
Theorem last_is_whole_string s :
  ∃ σ sl, SuffixAutomaton_init s = Ok (tt, σ) ∧
    states σ !! last σ = Some sl ∧ len sl = length s ∧
    walk (states σ) 0 s = Some (last σ) ∧
    (∀ v sv, states σ !! v = Some sv → len sv ≤ length s) ∧
    length s < length (states σ).
Proof.
  destruct (init_inv s) as (σ & rep & Hrun & Hinv & _).
  destruct (lookup_lt_is_Some_2 _ _ (inv_last_lt _ _ _ Hinv)) as [sl Hsl].
  exists σ, sl. split_and!; [done..| |apply (walk_last Hinv)| |].
  - by rewrite (inv_len _ _ _ Hinv _ _ Hsl), (inv_last _ _ _ Hinv).
  - intros v sv Hsv. rewrite (inv_len _ _ _ Hinv _ _ Hsv).
    apply (inv_rep_length Hinv). by eapply lookup_lt_Some.
  - apply (inv_count _ _ _ Hinv).
Qed.

(** X5: [len] is the length of the longest string that leads to the state:
    in the automaton built from any [s], every state is reached from state 0
    by a string of [len] symbols and by no longer string. *)
Theorem len_is_longest_path s :
  ∃ σ, SuffixAutomaton_init s = Ok (tt, σ) ∧
    ∀ v sv, states σ !! v = Some sv →
      (∃ w, length w = len sv ∧ walk (states σ) 0 w = Some v) ∧
      (∀ w, walk (states σ) 0 w = Some v → length w ≤ len sv).
Proof.
  destruct (init_inv s) as (σ & rep & Hrun & Hinv & _).
  exists σ. split; [done|]. apply (len_bounds Hinv).
Qed.

(** X6: the states are the classes of substrings with the same end
    positions: two substrings of [s] lead to the same state exactly when
    they end at the same places of [s]. *)
Theorem same_state_iff_same_endpos s w w' :
  ∃ σ, SuffixAutomaton_init s = Ok (tt, σ) ∧
    (substring w s → substring w' s →
     (walk (states σ) 0 w = walk (states σ) 0 w' ↔ endpos_eq s w w')).
Proof.
  destruct (init_inv s) as (σ & rep & Hrun & Hinv & _).
  exists σ. split; [done|]. apply (walk_same_state Hinv).
Qed.

(** X7: what the suffix link means: when [w] leads to a state [v] other than
    state 0, the link of [v] is a state [u] with [len u < |w| <= len v]; the
    suffixes of [w] longer than [len u] lead to [v], and the suffix of
    length [len u] leads to [u]. *)
Theorem link_is_longest_other_suffix s :
  ∃ σ, SuffixAutomaton_init s = Ok (tt, σ) ∧
    ∀ w v sv, walk (states σ) 0 w = Some v → v ≠ 0 →
      states σ !! v = Some sv →
      ∃ u su, link sv = Z.of_nat u ∧ states σ !! u = Some su ∧
        len su < length w ≤ len sv ∧
        ∀ y, y `suffix_of` w →
          (len su < length y → walk (states σ) 0 y = Some v) ∧
          (length y = len su → walk (states σ) 0 y = Some u).
Proof.
  destruct (init_inv s) as (σ & rep & Hrun & Hinv & _).
  exists σ. split; [done|]. apply (walk_class Hinv).
Qed.

(** X8: the suffixes of [s] are recognised by the suffix links of [last]:
    a string is a suffix of [s] exactly when it leads from state 0 to a
    state on the chain of suffix links that starts at [last]. *)
Theorem suffix_iff_terminal s :
  ∃ σ, SuffixAutomaton_init s = Ok (tt, σ) ∧
    ∀ w, w `suffix_of` s ↔
         ∃ v, walk (states σ) 0 w = Some v ∧ v ∈ terminal_states σ.
Proof.
  destruct (init_inv s) as (σ & rep & Hrun & Hinv & _).
  exists σ. split; [done|]. apply (terminal_iff_suffix Hinv).
Qed.

(** The query, with what is known of its result. *)
Lemma lcs_run s t :
  ∃ σ k, SuffixAutomaton_init s = Ok (tt, σ) ∧
         longest_common_substring t σ = Ok (k, σ) ∧ is_lcs_len s t k.
Proof.
  destruct (init_inv s) as (σ & rep & Hrun & Hinv & _).
  exists σ, (lcs_brute s t).
  split_and!; [done|apply (lcs_correct Hinv)|apply lcs_brute_spec].
Qed.

(** X9: the result of the query is at most the length of the string the
    automaton was built from and at most the length of the text. *)
Theorem lcs_at_most_lengths s t :
  ∃ σ k, SuffixAutomaton_init s = Ok (tt, σ) ∧
         longest_common_substring t σ = Ok (k, σ) ∧
         k ≤ length s ∧ k ≤ length t.
Proof.
  destruct (lcs_run s t) as (σ & k & Hrun & Hq & Hk).
  exists σ, k. split_and!; [done..| |]; by apply (is_lcs_len_le s t k).
Qed.

(** X10: the query returns the length of the text exactly when the whole
    text occurs in the string the automaton was built from. *)
Theorem lcs_full_match_iff_substring s t :
  ∃ σ k, SuffixAutomaton_init s = Ok (tt, σ) ∧
         longest_common_substring t σ = Ok (k, σ) ∧
         (k = length t ↔ substring t s).
Proof.
  destruct (lcs_run s t) as (σ & k & Hrun & Hq & Hk).
  exists σ, k. split_and!; [done..|]. by apply is_lcs_len_full.
Qed.

(** X11: the result does not depend on which of the two strings the
    automaton is built from: the query for [t] on the automaton of [s] and
    the query for [s] on the automaton of [t] return the same number. *)
Theorem lcs_symmetric s t :
  ∃ σs σt k, SuffixAutomaton_init s = Ok (tt, σs) ∧
             SuffixAutomaton_init t = Ok (tt, σt) ∧
             longest_common_substring t σs = Ok (k, σs) ∧
             longest_common_substring s σt = Ok (k, σt).
Proof.
  destruct (lcs_run s t) as (σs & k & Hrun & Hq & Hk).
  destruct (lcs_run t s) as (σt & k' & Hrun' & Hq' & Hk').
  exists σs, σt, k. split_and!; [done..|].
  by rewrite (is_lcs_len_unique t s k k' (is_lcs_len_sym s t k Hk) Hk').
Qed.

(** X12: the query returns 0 exactly when the two strings have no symbol in
    common. *)
Theorem lcs_zero_iff_disjoint s t :
  ∃ σ k, SuffixAutomaton_init s = Ok (tt, σ) ∧
         longest_common_substring t σ = Ok (k, σ) ∧
         (k = 0 ↔ ∀ c, c ∈ s → c ∉ t).
Proof.
  destruct (lcs_run s t) as (σ & k & Hrun & Hq & Hk).
  exists σ, k. split_and!; [done..|]. by apply is_lcs_len_zero.
Qed.

(** X13: one more [extend] never lowers the answer of a query and raises it
    by at most one. *)
Theorem lcs_after_extend s c t :
  ∃ σ σ' k k', SuffixAutomaton_init s = Ok (tt, σ) ∧
               extend c σ = Ok (tt, σ') ∧
               longest_common_substring t σ = Ok (k, σ) ∧
               longest_common_substring t σ' = Ok (k', σ') ∧
               k ≤ k' ≤ k + 1.
Proof.
  destruct (init_inv s) as (σ & rep & Hrun & Hinv & _).
  destruct (extend_inv Hinv c) as (σ' & rep' & Hext & Hinv' & _).
  exists σ, σ', (lcs_brute s t), (lcs_brute (s ++ [c]) t).
  pose proof (is_lcs_len_snoc_bounds s c t _ _
    (lcs_brute_spec s t) (lcs_brute_spec (s ++ [c]) t)) as [Hlo Hhi].
  split_and!;
    [done|done|apply (lcs_correct Hinv)|apply (lcs_correct Hinv')|done|done].
Qed.

(** X14: the transitions are at most the states plus the symbols, less two:
    for a nonempty [s], the automaton built from [s] has at most
    [len(states) + |s| - 2] transition entries. *)
Theorem transitions_at_most_states_plus_length s :
  ∃ σ, SuffixAutomaton_init s = Ok (tt, σ) ∧
    (s ≠ [] → num_transitions σ + 2 ≤ length (states σ) + length s).
Proof.
  destruct (init_inv s) as (σ & rep & Hrun & Hinv & _).
  exists σ. split; [done|]. intros Hne. apply (transitions_le_general Hinv).
  destruct s; [done|simpl; lia].
Qed.

End Extras.

(** A run of [extend] that makes a clone, for the two statements about
    single calls. *)
Lemma extend_old_states_witness :
  extend 1 (sam_of [0; 1]) = Ok (tt, sam_of [0; 1; 1]) ∧
  ∀ v sv, states (sam_of [0; 1]) !! v = Some sv →
    ∃ sv', states (sam_of [0; 1; 1]) !! v = Some sv' ∧
      (∀ c, next sv' !! c = next sv !! c ∨
            (c = 1 ∧ ∃ q, next sv' !! c = Some q ∧
                          length (states (sam_of [0; 1])) ≤ q
                          < length (states (sam_of [0; 1; 1])))) ∧
      (link sv' = link sv ∨
       ∃ k, link sv' = Z.of_nat k ∧
            length (states (sam_of [0; 1])) ≤ k
            < length (states (sam_of [0; 1; 1]))).
Proof.
  assert (extend 1 (sam_of [0; 1]) = Ok (tt, sam_of [0; 1; 1])) as Hrun
    by (vm_compute; reflexivity).
  split; [exact Hrun|]. exact (extend_old_states 1 _ _ Hrun).
Defined.

Lemma extend_sets_last_witness :
  extend 1 (sam_of [0; 1]) = Ok (tt, sam_of [0; 1; 1]) ∧
  last (sam_of [0; 1; 1]) = length (states (sam_of [0; 1])).
Proof.
  assert (extend 1 (sam_of [0; 1]) = Ok (tt, sam_of [0; 1; 1])) as Hrun
    by (vm_compute; reflexivity).
  split; [exact Hrun|]. exact (extend_sets_last 1 _ _ Hrun).
Defined.
